(** * Bingo spinner: a shallow embedding of the spin engine

    The component [BingoSpinner] keeps its session in React state cells and
    changes them from event handlers ([applyList], [resetList],
    [setClassicBingo], [handleSpin]) and from one timer callback.  The
    embedding keeps one record for the state cells, one function per handler,
    and a list of pending timer closures.  The inputs of the rendering (the
    palette, the angles of the slices, the disabled flags of the buttons)
    and the voice settings ([loadVoices], [speak]) follow.

    Conventions of the model:
    - JavaScript numbers are read as exact numbers: angles are rationals
      ([Q]), counters and indices are naturals.  Rounding of IEEE doubles is
      outside the model.
    - [Math.random()] is an input of [handleSpin]: a rational [u] with
      [0 <= u < 1] ([valid_draw]).
    - Strings are sequences of 8-bit code units; the white space removed by
      [trim] is the set of code units 9-13, 32 and 160.
    - A value read from an array may be [undefined]: it is an
      [option string], with [None] for [undefined]. *)

From Stdlib Require Import QArith Qround Lqa Ascii String DecimalString.
From stdpp Require Import base list strings.

(** ** Numbers *)

(** Truncation toward zero of a rational. *)
Definition Qtrunc (q : Q) : Z := Z.quot (Qnum q) (Zpos (Qden q)).

(** The remainder operator [a % b] of JavaScript: the result has the sign of
    the dividend.  Every use in the source has the literal divisor 360. *)
Definition js_rem (a b : Q) : Q := (a - b * inject_Z (Qtrunc (a / b)))%Q.

(** The mathematical residue in [[0, b)], used to state results. *)
Definition Qmod (a b : Q) : Q := (a - b * inject_Z (Qfloor (a / b)))%Q.

(** A result of [Math.random()]. *)
Definition valid_draw (u : Q) : Prop := (0 <= u /\ u < 1)%Q.

Definition Qnat (n : nat) : Q := inject_Z (Z.of_nat n).

(** ** Text list input *)

Definition LF : ascii := "010"%char.
Definition CR : ascii := "013"%char.
Definition newline : string := String LF EmptyString.

(** A character in front of the first piece of a split. *)
Definition cons_char (c : ascii) (pieces : list string) : list string :=
  match pieces with
  | piece :: more => String c piece :: more
  | [] => [String c EmptyString]
  end.

(** [s.split(/\r?\n/)]: the separator is a line feed, with the carriage
    return in front of it when there is one. *)
Fixpoint split_lines (s : string) : list string :=
  match s with
  | EmptyString => [EmptyString]
  | String c rest =>
      if Ascii.eqb c LF then EmptyString :: split_lines rest
      else if Ascii.eqb c CR then
        match rest with
        | String c' rest' =>
            if Ascii.eqb c' LF then EmptyString :: split_lines rest'
            else cons_char c (split_lines rest)
        | EmptyString => cons_char c (split_lines rest)
        end
      else cons_char c (split_lines rest)
  end.

Definition is_whitespace (c : ascii) : bool :=
  match c with
  | "009" | "010" | "011" | "012" | "013" | " " | "160" => true
  | _ => false
  end%char.

Fixpoint trimStart (s : string) : string :=
  match s with
  | EmptyString => EmptyString
  | String c rest => if is_whitespace c then trimStart rest else s
  end.

Fixpoint trimEnd (s : string) : string :=
  match s with
  | EmptyString => EmptyString
  | String c rest =>
      match trimEnd rest with
      | EmptyString => if is_whitespace c then EmptyString else String c EmptyString
      | rest' => String c rest'
      end
  end.

(** [s.trim()] *)
Definition trim (s : string) : string := trimEnd (trimStart s).

(** [Boolean(s)] for a string: the empty string is the only falsy one. *)
Definition truthy (s : string) : bool :=
  match s with
  | EmptyString => false
  | String _ _ => true
  end.

(** [raw.split(/\r?\n/).map((s) => s.trim()).filter(Boolean)] *)
Definition parseList (raw : string) : list string :=
  List.filter truthy (List.map trim (split_lines raw)).

(** ** Session state *)

(** The closure handed to [window.setTimeout] by [handleSpin]: it holds the
    values of the render in which the spin was requested. *)
Record Timer := mkTimer {
  t_items : list string;
  t_idx : nat;
  t_autoSpeak : bool;
  t_removeOnPick : bool
}.

Record State := mkState {
  rawList : string;
  items : list string;
  history : list (option string);
  removeOnPick : bool;
  autoSpeak : bool;
  selectedIndex : option nat;
  isSpinning : bool;
  rotation : Q;
  spinCount : nat;
  timers : list Timer;
  spoken : list (option string)
}.

Definition defaultItems : list string :=
  ["B1"; "B2"; "B3"; "B4"; "B5"; "I16"; "I17"; "I18"; "I19"; "I20";
   "N31"; "N32"; "N33"; "N34"; "N35"; "G46"; "G47"; "G48"; "G49"; "G50";
   "O61"; "O62"; "O63"; "O64"; "O65"].

(** The template literal [defaultWords]: the labels separated by line feeds. *)
Definition defaultWords : string := String.concat newline defaultItems.

Definition initialState : State :=
  {| rawList := defaultWords;
     items := parseList defaultWords;
     history := [];
     removeOnPick := false;
     autoSpeak := true;
     selectedIndex := None;
     isSpinning := false;
     rotation := 0;
     spinCount := 0;
     timers := [];
     spoken := [] |}.

(** ** Pool manager *)

(** [items.length > 0 ? 360 / items.length : 0] *)
Definition sliceAngle (its : list string) : Q :=
  if (0 <? length its)%nat then (360 / Qnat (length its))%Q else 0%Q.

Definition applyList (s : State) : State :=
  let list := parseList (rawList s) in
  if (0 <? length list)%nat then
    {| rawList := rawList s;
       items := list;
       history := [];
       removeOnPick := removeOnPick s;
       autoSpeak := autoSpeak s;
       selectedIndex := None;
       isSpinning := isSpinning s;
       rotation := 0;
       spinCount := 0;
       timers := timers s;
       spoken := spoken s |}
  else s.

Definition resetList (s : State) : State :=
  {| rawList := rawList s;
     items := parseList (rawList s);
     history := [];
     removeOnPick := removeOnPick s;
     autoSpeak := autoSpeak s;
     selectedIndex := None;
     isSpinning := isSpinning s;
     rotation := 0;
     spinCount := 0;
     timers := timers s;
     spoken := spoken s |}.

(** ** Classic preset *)

Definition letters : list string := ["B"; "I"; "N"; "G"; "O"].

Definition ranges : list (nat * nat) :=
  [(1, 15); (16, 30); (31, 45); (46, 60); (61, 75)]%nat.

(** The decimal text of a number, as a template literal prints it. *)
Definition numberToString (n : nat) : string :=
  NilEmpty.string_of_uint (Nat.to_uint n).

(** The inner loop [for (let n = a; n <= b; n++) out.push(...)]. *)
Definition pushBand (letter : string) (a b : nat) (out : list string) : list string :=
  fold_left (fun acc n => acc ++ [letter +:+ numberToString n])
            (seq a (S b - a)) out.

(** The outer loop [for (let i = 0; i < 5; i++)] of [setClassicBingo]. *)
Definition classicBingoItems : list string :=
  fold_left
    (fun out i =>
       match letters !! i, ranges !! i with
       | Some letter, Some (a, b) => pushBand letter a b out
       | _, _ => out
       end)
    (seq 0 5) [].

Definition setClassicBingo (s : State) : State :=
  let out := classicBingoItems in
  let text := String.concat newline out in
  {| rawList := text;
     items := out;
     history := [];
     removeOnPick := removeOnPick s;
     autoSpeak := autoSpeak s;
     selectedIndex := None;
     isSpinning := isSpinning s;
     rotation := 0;
     spinCount := 0;
     timers := timers s;
     spoken := spoken s |}.

(** ** Selector and rotation planner *)

(** [Math.floor(Math.random() * items.length)], the product taken exactly:
    the code floors the product rounded to a double, which at a draw just
    below a boundary [i / n] can be the next index. *)
Definition pickIndex (u : Q) (n : nat) : nat :=
  Z.to_nat (Qfloor (u * Qnat n)).

(** [6 + Math.floor(Math.random() * 4)] *)
Definition extraSpins (u : Q) : Z := (6 + Qfloor (u * 4))%Z.

(** [idx * sliceAngle + sliceAngle / 2] *)
Definition centerAngle (idx : nat) (slice : Q) : Q :=
  (Qnat idx * slice + slice / 2)%Q.

(** [((rotation % 360) + 360) % 360] *)
Definition normalize (r : Q) : Q := js_rem (js_rem r 360 + 360) 360.

(** [(360 - ((centerAngle + current) % 360)) % 360], the remainders taken
    exactly: in doubles a sum that should be a whole number of turns can
    leave a residue of rounding, and the result is then just below 360
    where it is 0 here. *)
Definition deltaToZero (center current : Q) : Q :=
  js_rem (360 - js_rem (center + current) 360) 360.

(** [rotation + extraSpins * 360 + deltaToZero] *)
Definition spinTarget (r : Q) (idx : nat) (slice : Q) (extra : Z) : Q :=
  (r + inject_Z extra * 360 + deltaToZero (centerAngle idx slice) (normalize r))%Q.

(** ** Spin sequencer *)

(** [prev.filter((_, i) => keep(_, i))], with the index counted from [i]. *)
Fixpoint filter_index {A : Type} (keep : A -> nat -> bool) (i : nat) (l : list A) : list A :=
  match l with
  | [] => []
  | x :: rest =>
      if keep x i then x :: filter_index keep (S i) rest
      else filter_index keep (S i) rest
  end.

(** [speak(text)]: the model records the text handed to the speech
    collaborator. *)
Definition speak (text : option string) (log : list (option string)) : list (option string) :=
  log ++ [text].

Definition handleSpin (u1 u2 : Q) (s : State) : State :=
  if (length (items s) =? 0)%nat || isSpinning s then s
  else
    let idx := pickIndex u1 (length (items s)) in
    let target := spinTarget (rotation s) idx (sliceAngle (items s)) (extraSpins u2) in
    {| rawList := rawList s;
       items := items s;
       history := history s;
       removeOnPick := removeOnPick s;
       autoSpeak := autoSpeak s;
       selectedIndex := Some idx;
       isSpinning := true;
       rotation := target;
       spinCount := S (spinCount s);
       timers := timers s ++ [{| t_items := items s;
                                 t_idx := idx;
                                 t_autoSpeak := autoSpeak s;
                                 t_removeOnPick := removeOnPick s |}];
       spoken := spoken s |}.

(** The callback of [window.setTimeout(..., 4500)], run on the state at the
    time it fires.  [picked], [autoSpeak] and [removeOnPick] are those of the
    closure; [setHistory] and [setItems] update the current cells. *)
Definition runTimer (t : Timer) (pending : list Timer) (s : State) : State :=
  let picked := t_items t !! t_idx t in
  {| rawList := rawList s;
     items := if t_removeOnPick t
              then filter_index (fun _ i => negb (i =? t_idx t)%nat) 0 (items s)
              else items s;
     history := picked :: history s;
     removeOnPick := removeOnPick s;
     autoSpeak := autoSpeak s;
     selectedIndex := selectedIndex s;
     isSpinning := false;
     rotation := rotation s;
     spinCount := spinCount s;
     timers := pending;
     spoken := if t_autoSpeak t then speak picked (spoken s) else spoken s |}.

(** The oldest pending timer elapses (all timers have the same delay). *)
Definition timerElapsed (s : State) : State :=
  match timers s with
  | [] => s
  | t :: pending => runTimer t pending s
  end.

(** [if (history[0]) speak(history[0])] *)
Definition speakAgain (s : State) : State :=
  match history s with
  | Some text :: _ =>
      if truthy text then
        {| rawList := rawList s;
           items := items s;
           history := history s;
           removeOnPick := removeOnPick s;
           autoSpeak := autoSpeak s;
           selectedIndex := selectedIndex s;
           isSpinning := isSpinning s;
           rotation := rotation s;
           spinCount := spinCount s;
           timers := timers s;
           spoken := speak (Some text) (spoken s) |}
      else s
  | _ => s
  end.

(** The [onChange] handlers of the text box and of the two check boxes. *)
Definition setRawList (text : string) (s : State) : State :=
  {| rawList := text;
     items := items s;
     history := history s;
     removeOnPick := removeOnPick s;
     autoSpeak := autoSpeak s;
     selectedIndex := selectedIndex s;
     isSpinning := isSpinning s;
     rotation := rotation s;
     spinCount := spinCount s;
     timers := timers s;
     spoken := spoken s |}.

Definition setRemoveOnPick (b : bool) (s : State) : State :=
  {| rawList := rawList s;
     items := items s;
     history := history s;
     removeOnPick := b;
     autoSpeak := autoSpeak s;
     selectedIndex := selectedIndex s;
     isSpinning := isSpinning s;
     rotation := rotation s;
     spinCount := spinCount s;
     timers := timers s;
     spoken := spoken s |}.

Definition setAutoSpeak (b : bool) (s : State) : State :=
  {| rawList := rawList s;
     items := items s;
     history := history s;
     removeOnPick := removeOnPick s;
     autoSpeak := b;
     selectedIndex := selectedIndex s;
     isSpinning := isSpinning s;
     rotation := rotation s;
     spinCount := spinCount s;
     timers := timers s;
     spoken := spoken s |}.

(** ** Sessions *)

(** What can happen in a session: a click on one of the buttons, an edit of
    the text box or of a check box, or the pending timer elapsing. *)
Inductive Event :=
  | EApplyList
  | EResetList
  | ESetClassicBingo
  | EHandleSpin (u1 u2 : Q)
  | ETimerElapsed
  | ESpeakAgain
  | ESetRawList (text : string)
  | ESetRemoveOnPick (b : bool)
  | ESetAutoSpeak (b : bool).

Definition step (e : Event) (s : State) : State :=
  match e with
  | EApplyList => applyList s
  | EResetList => resetList s
  | ESetClassicBingo => setClassicBingo s
  | EHandleSpin u1 u2 => handleSpin u1 u2 s
  | ETimerElapsed => timerElapsed s
  | ESpeakAgain => speakAgain s
  | ESetRawList text => setRawList text s
  | ESetRemoveOnPick b => setRemoveOnPick b s
  | ESetAutoSpeak b => setAutoSpeak b s
  end.

Definition run (evs : list Event) (s : State) : State :=
  fold_left (fun st e => step e st) evs s.

Definition valid_event (e : Event) : Prop :=
  match e with
  | EHandleSpin u1 u2 => valid_draw u1 /\ valid_draw u2
  | _ => True
  end.

Inductive reachable : State -> Prop :=
  | reachable_init : reachable initialState
  | reachable_step s e : reachable s -> valid_event e -> reachable (step e s).

(** Events that touch neither the pool nor the counters while a spin is in
    progress: edits of the text box and of the check boxes, "speak again",
    and further clicks on the spin button. *)
Definition passive (e : Event) : bool :=
  match e with
  | EHandleSpin _ _ | ESpeakAgain | ESetRawList _
  | ESetRemoveOnPick _ | ESetAutoSpeak _ => true
  | EApplyList | EResetList | ESetClassicBingo | ETimerElapsed => false
  end.

(** Events that set the rotation back to zero when they are accepted. *)
Definition clearing (e : Event) : bool :=
  match e with
  | EApplyList | EResetList | ESetClassicBingo => true
  | _ => false
  end.

(** What every state of a session satisfies: the rotation is not negative;
    a timer is pending exactly while spinning, at most one, and its index is
    inside the pool it captured; the history holds no [undefined]. *)
Definition session_invariant (s : State) : Prop :=
  (0 <= rotation s)%Q /\
  ((timers s = [] /\ isSpinning s = false) \/
   (exists t, timers s = [t] /\ isSpinning s = true /\
              t_idx t < length (t_items t))) /\
  Forall is_Some (history s).

(** ** Notions of the specification

    The definitions below follow the words of the specification, not the
    source; the theorems compare them with the code. *)

(** "The last raw text that was applied via the apply operation or preset":
    the session starts with the default text applied; an accepted apply
    applies the text of the box, the preset applies its own text.  The code
    keeps no such cell. *)
Fixpoint lastApplied (evs : list Event) (s : State) (applied : string) : string :=
  match evs with
  | [] => applied
  | e :: rest =>
      let applied' :=
        match e with
        | EApplyList =>
            if (0 <? length (parseList (rawList s)))%nat then rawList s else applied
        | ESetClassicBingo => String.concat newline classicBingoItems
        | _ => applied
        end in
      lastApplied rest (step e s) applied'
  end.

Definition lastAppliedText (evs : list Event) : string :=
  lastApplied evs initialState defaultWords.

(** Whether the text box was edited after the last accepted apply or preset. *)
Fixpoint editedSince (evs : list Event) (s : State) (edited : bool) : bool :=
  match evs with
  | [] => edited
  | e :: rest =>
      let edited' :=
        match e with
        | ESetRawList _ => true
        | EApplyList =>
            if (0 <? length (parseList (rawList s)))%nat then false else edited
        | ESetClassicBingo => false
        | _ => edited
        end in
      editedSince rest (step e s) edited'
  end.

(** "[sliceAngle()] returns [360 / length], or a sentinel undefined when
    length is 0": [None] is the sentinel. *)
Definition sliceAngle_spec (its : list string) : option Q :=
  if (0 <? length its)%nat then Some (360 / Qnat (length its))%Q else None.

(** The number [q] returned by the code is what the specification names. *)
Definition agrees (o : option Q) (q : Q) : Prop :=
  match o with
  | Some x => (x == q)%Q
  | None => False
  end.

(** "5 bands of 15, band letters x numeric ranges [1,15] ... [61,75],
    concatenated in band order, each item formatted as letter, number". *)
Definition presetBand (k : nat) : list string :=
  List.map (fun j => nth k ["B"; "I"; "N"; "G"; "O"] EmptyString
                     +:+ numberToString (15 * k + 1 + j))
           (seq 0 15).

Definition presetSpec : list string :=
  presetBand 0 ++ presetBand 1 ++ presetBand 2 ++ presetBand 3 ++ presetBand 4.

(** ** Sample sessions *)

(** The text ["X\nY\nZ"]. *)
Definition xyzText : string := String.concat newline ["X"; "Y"; "Z"].

(** The pool [X, Y, Z] applied and "remove after spin" ticked. *)
Definition xyzSession : State :=
  run [ESetRawList xyzText; EApplyList; ESetRemoveOnPick true] initialState.

(** A spin requested on the default pool, its timer pending. *)
Definition spinningSession : State := handleSpin (1 # 2) (1 # 2) initialState.

(** The same spin after its timer elapsed. *)
Definition spunSession : State := timerElapsed spinningSession.

(** An empty text box and, after a reset, an empty pool. *)
Definition emptySession : State :=
  run [ESetRawList EmptyString; EResetList] initialState.

(** ** Notions used to state properties of the text input *)

(** Whether the code unit [c] occurs in [s]. *)
Fixpoint mem_char (c : ascii) (s : string) : bool :=
  match s with
  | EmptyString => false
  | String c' rest => Ascii.eqb c' c || mem_char c rest
  end.

(** A label as the parser delivers it: not empty, nothing for [trim] to
    remove, no line feed inside. *)
Definition clean (x : string) : Prop :=
  truthy x = true /\ trim x = x /\ mem_char LF x = false.

(** The line end of a text written on Windows. *)
Definition crlf : string := String CR newline.

(** ** Rendering inputs *)

(** The palette [base] of the [colors] memo. *)
Definition base : list string :=
  ["#e5e7eb"; "#c7d2fe"; "#fde68a"; "#a7f3d0"; "#fecaca"; "#fbcfe8"; "#bfdbfe"; "#ddd6fe"].

(** [Array.from({ length: items.length }, (_, i) => base[i % base.length])] *)
Definition colors (n : nat) : list (option string) :=
  (fun i => base !! (i mod length base)) <$> seq 0 n.

(** What the [slices] memo computes for one slice, without the Cartesian
    coordinates (they go through [Math.cos] and [Math.sin]): the key, the
    start and end angles, the large-arc flag, the angle of the label, the
    fill colour, the font size and the label. *)
Record Slice := mkSlice {
  sl_key : nat;
  sl_start : Q;
  sl_end : Q;
  sl_largeArc : nat;
  sl_mid : Q;
  sl_fill : option string;
  sl_fontSize : nat;
  sl_label : option string
}.

(** The loop [for (let i = 0; i < items.length; i++)] of the memo, with its
    running [startAngle]. *)
Fixpoint slicesLoop (its : list string) (slice : Q) (cols : list (option string))
    (idxs : list nat) (startAngle : Q) : list Slice :=
  match idxs with
  | [] => []
  | i :: rest =>
      let endAngle := (startAngle + slice)%Q in
      {| sl_key := i;
         sl_start := startAngle;
         sl_end := endAngle;
         sl_largeArc := if Qle_bool slice 180 then 0 else 1;
         sl_mid := ((startAngle + endAngle) / 2)%Q;
         sl_fill := match cols !! i with Some c => c | None => None end;
         sl_fontSize := if 24 <? length its then 10
                        else if 16 <? length its then 12 else 14;
         sl_label := its !! i |}
      :: slicesLoop its slice cols rest endAngle
  end.

Definition slices (its : list string) : list Slice :=
  slicesLoop its (sliceAngle its) (colors (length its)) (seq 0 (length its)) 0.

(** [disabled={items.length === 0 || isSpinning}] of the spin button. *)
Definition spinDisabled (s : State) : bool :=
  (length (items s) =? 0) || isSpinning s.

(** [disabled={!history[0]}] of the "speak again" button. *)
Definition speakAgainDisabled (s : State) : bool :=
  match history s with
  | Some text :: _ => negb (truthy text)
  | _ => true
  end.

(** ** Voices *)

Record Voice := mkVoice {
  v_voiceURI : string;
  v_name : string;
  v_lang : option string
}.

(** The state cells of the speech settings. *)
Record VoiceState := mkVoiceState {
  voices : list Voice;
  voiceURI : string;
  rate : Q;
  pitch : Q;
  volume : Q
}.

(** [toLowerCase] on 8-bit code units: A-Z and the capital letters of
    Latin-1 move up by 32. *)
Definition lowerChar (c : ascii) : ascii :=
  let n := nat_of_ascii c in
  if ((65 <=? n) && (n <=? 90)) || ((192 <=? n) && (n <=? 222) && negb (n =? 215))
  then ascii_of_nat (n + 32) else c.

Fixpoint toLowerCase (s : string) : string :=
  match s with
  | EmptyString => EmptyString
  | String c rest => String (lowerChar c) (toLowerCase rest)
  end.

(** [(vv.lang || "").toLowerCase().startsWith("en")] *)
Definition isEnglish (vv : Voice) : bool :=
  String.prefix "en"
    (toLowerCase (match v_lang vv with
                  | Some l => if truthy l then l else EmptyString
                  | None => EmptyString
                  end)).

(** [loadVoices], with [v] the result of [getVoices()].  [v[0]] is read
    only under the guard [v.length]. *)
Definition loadVoices (v : list Voice) (vs : VoiceState) : VoiceState :=
  {| voices := v;
     voiceURI :=
       match v with
       | v0 :: _ =>
           if negb (truthy (voiceURI vs)) then
             match List.find isEnglish v with
             | Some en => if truthy (v_voiceURI en) then v_voiceURI en
                          else v_voiceURI v0
             | None => v_voiceURI v0
             end
           else voiceURI vs
       | [] => voiceURI vs
       end;
     rate := rate vs;
     pitch := pitch vs;
     volume := volume vs |}.

Record Utterance := mkUtterance {
  u_text : option string;
  u_voice : option Voice;
  u_rate : Q;
  u_pitch : Q;
  u_volume : Q
}.

(** [speak(text)] on the queue of the synthesiser: [cancel()] empties the
    queue, [speak(u)] puts [u] at its end.  The voice of the utterance is
    set when a voice with the chosen URI is found. *)
Definition speakUtterance (vs : VoiceState) (text : option string)
    (queue : list Utterance) : list Utterance :=
  let cancelled : list Utterance := [] in
  let v := List.find (fun vv => String.eqb (v_voiceURI vv) (voiceURI vs)) (voices vs) in
  cancelled ++ [{| u_text := text;
                   u_voice := v;
                   u_rate := rate vs;
                   u_pitch := pitch vs;
                   u_volume := volume vs |}].

(** ** Notions used to state properties of sessions *)


(** The labels in play are clean: those of the pool, those captured by a
    pending timer (whose index lies inside them), and those of the
    history. *)
Definition hygiene (s : State) : Prop :=
  Forall clean (items s) /\
  Forall (fun t => Forall clean (t_items t) /\ t_idx t < length (t_items t)) (timers s) /\
  Forall (fun h => exists x, h = Some x /\ clean x) (history s).


(** A text of white space only: spaces, tabs, line ends and the like. *)
Fixpoint all_whitespace (s : string) : bool :=
  match s with
  | EmptyString => true
  | String c rest => is_whitespace c && all_whitespace rest
  end.

(** * Properties *)

(** ** Remainders and residues *)

Section Residues.
Local Open Scope Q_scope.

Lemma Qtrunc_nonneg (q : Q) : 0 <= q -> Qtrunc q = Qfloor q.
Proof.
  destruct q as [n d]. unfold Qle, Qtrunc, Qfloor. simpl. intros H.
  apply Z.quot_div_nonneg; lia.
Qed.

Lemma Qtrunc_nonpos (q : Q) : q <= 0 -> Qtrunc q = (- Qfloor (- q))%Z.
Proof.
  destruct q as [n d]. unfold Qle, Qtrunc, Qfloor, Qopp. simpl. intros H.
  rewrite <- (Z.opp_involutive n) at 1.
  rewrite Z.quot_opp_l by lia.
  rewrite Z.quot_div_nonneg by lia. reflexivity.
Qed.

Lemma div360 (a : Q) : a == 360 * (a / 360).
Proof. field. Qed.

Lemma Qmod_bounds (a : Q) : 0 <= Qmod a 360 /\ Qmod a 360 < 360.
Proof.
  unfold Qmod. pose proof (Qfloor_le (a / 360)) as Hlo.
  pose proof (Qlt_floor (a / 360)) as Hhi.
  rewrite inject_Z_plus in Hhi. change (inject_Z 1) with 1 in Hhi.
  pose proof (div360 a) as Ha.
  set (x := a / 360) in *. set (k := inject_Z (Qfloor x)) in *.
  split; lra.
Qed.

Lemma js_rem_nonneg (a : Q) : 0 <= a -> js_rem a 360 = Qmod a 360.
Proof.
  intros Ha. unfold js_rem, Qmod. rewrite Qtrunc_nonneg; [reflexivity|].
  pose proof (div360 a). lra.
Qed.

Lemma js_rem_nonpos (a : Q) : a <= 0 -> js_rem a 360 == - Qmod (- a) 360.
Proof.
  intros Ha. unfold js_rem, Qmod. rewrite Qtrunc_nonpos.
  - rewrite inject_Z_opp.
    assert (E : - (a / 360) == - a / 360) by field.
    rewrite (Qfloor_comp _ _ E). ring.
  - pose proof (div360 a). lra.
Qed.

Lemma js_rem_nonneg_bounds (a : Q) :
  0 <= a -> 0 <= js_rem a 360 /\ js_rem a 360 < 360.
Proof. intros Ha. rewrite (js_rem_nonneg a Ha). apply Qmod_bounds. Qed.

Lemma js_rem_range (a : Q) : - (360) < js_rem a 360 /\ js_rem a 360 < 360.
Proof.
  destruct (Qlt_le_dec a 0) as [Hn | Hp].
  - assert (Ha : a <= 0) by lra.
    pose proof (js_rem_nonpos a Ha) as E.
    pose proof (Qmod_bounds (- a)) as [? ?]. lra.
  - pose proof (js_rem_nonneg_bounds a Hp) as [? ?]. lra.
Qed.

Lemma js_rem_shift (a : Q) : exists k : Z, js_rem a 360 == a - 360 * inject_Z k.
Proof. exists (Qtrunc (a / 360)). reflexivity. Qed.

Lemma Qmod_shift (a : Q) : exists k : Z, Qmod a 360 == a - 360 * inject_Z k.
Proof. exists (Qfloor (a / 360)). reflexivity. Qed.

Lemma inject_Z_small (k : Z) : - (1) < inject_Z k -> inject_Z k < 1 -> k = 0%Z.
Proof.
  intros Hlo Hhi.
  change (- (1)) with (inject_Z (-1)) in Hlo. change 1 with (inject_Z 1) in Hhi.
  rewrite <- Zlt_Qlt in Hlo, Hhi. lia.
Qed.

(** Two numbers of [[0, 360)] that differ by a whole number of turns are equal. *)
Lemma residue_unique (x y : Q) (k : Z) :
  x - y == 360 * inject_Z k ->
  0 <= x -> x < 360 -> 0 <= y -> y < 360 -> x == y.
Proof.
  intros E Hx0 Hx Hy0 Hy.
  assert (K : k = 0%Z) by (apply inject_Z_small; lra).
  subst k. change (inject_Z 0) with 0 in E. lra.
Qed.


End Residues.

(** ** Rotation planner *)

Section Planner.
Local Open Scope Q_scope.

Lemma Qnat_lt (i n : nat) : (i < n)%nat -> Qnat i + 1 <= Qnat n.
Proof.
  intros H. unfold Qnat. change 1 with (inject_Z 1).
  rewrite <- inject_Z_plus, <- Zle_Qle. lia.
Qed.

Lemma Qnat_nonneg (n : nat) : 0 <= Qnat n.
Proof. unfold Qnat. change 0 with (inject_Z 0). rewrite <- Zle_Qle. lia. Qed.

Lemma sliceAngle_nonempty (its : list string) :
  its <> [] -> sliceAngle its = 360 / Qnat (length its).
Proof.
  intros H. unfold sliceAngle. destruct its as [|x l]; [congruence|reflexivity].
Qed.

Lemma centerAngle_bounds (its : list string) (idx : nat) :
  its <> [] -> (idx < length its)%nat ->
  0 < centerAngle idx (sliceAngle its) /\ centerAngle idx (sliceAngle its) < 360.
Proof.
  intros Hne Hidx. rewrite (sliceAngle_nonempty its Hne). unfold centerAngle.
  pose proof (Qnat_lt _ _ Hidx) as HN. pose proof (Qnat_nonneg idx) as HI.
  set (N := Qnat (length its)) in *. set (I := Qnat idx) in *.
  assert (HN0 : 0 < N) by lra.
  assert (Hs : 0 < 360 / N).
  { unfold Qdiv. apply Qmult_lt_0_compat; [reflexivity|].
    apply Qinv_lt_0_compat; assumption. }
  assert (HsN : (360 / N) * N == 360) by (field; lra).
  set (s := 360 / N) in *.
  assert (H1 : 0 <= I * s) by (apply Qmult_le_0_compat; lra).
  assert (H2 : 0 <= (N - I - 1) * s) by (apply Qmult_le_0_compat; lra).
  assert (H3 : s / 2 == s * (1 # 2)) by field.
  split; lra.
Qed.

Lemma normalize_bounds (r : Q) : 0 <= normalize r /\ normalize r < 360.
Proof.
  unfold normalize. apply js_rem_nonneg_bounds.
  pose proof (js_rem_range r). lra.
Qed.

Lemma normalize_shift (r : Q) : exists k : Z, normalize r == r - 360 * inject_Z k.
Proof.
  unfold normalize.
  destruct (js_rem_shift r) as [k1 E1].
  destruct (js_rem_shift (js_rem r 360 + 360)) as [k2 E2].
  exists (k1 + k2 - 1)%Z.
  rewrite E2, E1. unfold Zminus. rewrite !inject_Z_plus, inject_Z_opp.
  change (inject_Z 1) with 1. ring.
Qed.

Lemma deltaToZero_bounds (center current : Q) :
  0 <= center -> 0 <= current ->
  0 <= deltaToZero center current /\ deltaToZero center current < 360.
Proof.
  intros Hc Hr. unfold deltaToZero. apply js_rem_nonneg_bounds.
  assert (H : 0 <= center + current) by lra.
  pose proof (js_rem_nonneg_bounds _ H). lra.
Qed.

Lemma deltaToZero_shift (center current : Q) :
  exists k : Z, deltaToZero center current == - center - current + 360 * inject_Z k.
Proof.
  unfold deltaToZero.
  destruct (js_rem_shift (center + current)) as [k1 E1].
  destruct (js_rem_shift (360 - js_rem (center + current) 360)) as [k2 E2].
  exists (1 + k1 - k2)%Z.
  rewrite E2, E1. unfold Zminus. rewrite !inject_Z_plus, inject_Z_opp.
  change (inject_Z 1) with 1. ring.
Qed.

Lemma spinTarget_increases (r : Q) (idx : nat) (its : list string) (extra : Z) :
  its <> [] -> (idx < length its)%nat -> (1 <= extra)%Z ->
  r + 360 <= spinTarget r idx (sliceAngle its) extra.
Proof.
  intros Hne Hidx Hex. unfold spinTarget.
  pose proof (centerAngle_bounds its idx Hne Hidx) as [Hc0 Hc1].
  pose proof (normalize_bounds r) as [Hn0 Hn1].
  assert (Hc : 0 <= centerAngle idx (sliceAngle its)) by lra.
  pose proof (deltaToZero_bounds _ _ Hc Hn0) as [Hd0 Hd1].
  assert (HE : 1 <= inject_Z extra).
  { change 1 with (inject_Z 1). rewrite <- Zle_Qle. assumption. }
  set (d := deltaToZero _ _) in *. set (E := inject_Z extra) in *. lra.
Qed.

Lemma spinTarget_residue (r : Q) (idx : nat) (its : list string) (extra : Z) :
  its <> [] -> (idx < length its)%nat ->
  Qmod (spinTarget r idx (sliceAngle its) extra) 360
  == 360 - centerAngle idx (sliceAngle its).
Proof.
  intros Hne Hidx.
  pose proof (centerAngle_bounds its idx Hne Hidx) as [Hc0 Hc1].
  destruct (normalize_shift r) as [kn En].
  destruct (deltaToZero_shift (centerAngle idx (sliceAngle its)) (normalize r)) as [kd Ed].
  destruct (Qmod_shift (spinTarget r idx (sliceAngle its) extra)) as [km Em].
  pose proof (Qmod_bounds (spinTarget r idx (sliceAngle its) extra)) as [Hm0 Hm1].
  apply (residue_unique _ _ (extra + kn + kd - km - 1)%Z); try lra.
  rewrite Em. unfold spinTarget. rewrite Ed, En.
  unfold Zminus. rewrite !inject_Z_plus, !inject_Z_opp.
  change (inject_Z 1) with 1. ring.
Qed.

End Planner.


(** ** Selector *)

Section Selector.
Local Open Scope Q_scope.

Lemma Qfloor_range (x : Q) (a b : Z) :
  inject_Z a <= x -> x < inject_Z b -> (a <= Qfloor x < b)%Z.
Proof.
  intros Ha Hb. pose proof (Qfloor_le x) as Hlo. pose proof (Qlt_floor x) as Hhi.
  split.
  - assert (H : inject_Z a < inject_Z (Qfloor x + 1)) by lra.
    rewrite <- Zlt_Qlt in H. lia.
  - assert (H : inject_Z (Qfloor x) < inject_Z b) by lra.
    rewrite <- Zlt_Qlt in H. assumption.
Qed.

Lemma pickIndex_lt (u : Q) (n : nat) :
  valid_draw u -> (0 < n)%nat -> (pickIndex u n < n)%nat.
Proof.
  intros [Hu0 Hu1] Hn. unfold pickIndex.
  assert (HN : 0 < Qnat n).
  { unfold Qnat. change 0 with (inject_Z 0). rewrite <- Zlt_Qlt. lia. }
  assert (H0 : 0 <= u * Qnat n) by (apply Qmult_le_0_compat; lra).
  assert (H1 : u * Qnat n < 1 * Qnat n) by (apply Qmult_lt_r; assumption).
  destruct (Qfloor_range (u * Qnat n) 0 (Z.of_nat n)) as [Hlo Hhi].
  - exact H0.
  - fold (Qnat n). lra.
  - lia.
Qed.

Lemma extraSpins_range (u : Q) : valid_draw u -> (6 <= extraSpins u <= 9)%Z.
Proof.
  intros [Hu0 Hu1]. unfold extraSpins.
  destruct (Qfloor_range (u * 4) 0 4) as [Hlo Hhi].
  - change (inject_Z 0) with 0. lra.
  - change (inject_Z 4) with 4. lra.
  - lia.
Qed.

End Selector.

(** ** Removal by position *)

Lemma filter_index_below {A : Type} (l : list A) (i t : nat) :
  t < i -> filter_index (fun _ k => negb (k =? t)) i l = l.
Proof.
  revert i. induction l as [|x l IH]; intros i Hlt; simpl; [reflexivity|].
  destruct (Nat.eqb_spec i t) as [->|_]; [lia|]. simpl.
  rewrite IH by lia. reflexivity.
Qed.

Lemma filter_index_delete {A : Type} (l : list A) (i j : nat) :
  filter_index (fun _ k => negb (k =? i + j)) i l = delete j l.
Proof.
  revert i j. induction l as [|x l IH]; intros i j; simpl; [reflexivity|].
  destruct j as [|j].
  - rewrite Nat.add_0_r, Nat.eqb_refl. simpl.
    apply filter_index_below. lia.
  - destruct (Nat.eqb_spec i (i + S j)) as [E|_]; [lia|]. simpl.
    replace (i + S j) with (S i + j) by lia. rewrite IH. reflexivity.
Qed.

Lemma filter_index_removes {A : Type} (l : list A) (idx : nat) :
  filter_index (fun _ k => negb (k =? idx)) 0 l = take idx l ++ drop (S idx) l.
Proof.
  rewrite <- (delete_take_drop l idx). apply (filter_index_delete l 0 idx).
Qed.

(** ** Spin sequencer *)

Lemma handleSpin_accepted (u1 u2 : Q) (s : State) :
  items s <> [] -> isSpinning s = false ->
  handleSpin u1 u2 s =
    {| rawList := rawList s;
       items := items s;
       history := history s;
       removeOnPick := removeOnPick s;
       autoSpeak := autoSpeak s;
       selectedIndex := Some (pickIndex u1 (length (items s)));
       isSpinning := true;
       rotation := spinTarget (rotation s) (pickIndex u1 (length (items s)))
                     (sliceAngle (items s)) (extraSpins u2);
       spinCount := S (spinCount s);
       timers := timers s ++ [{| t_items := items s;
                                 t_idx := pickIndex u1 (length (items s));
                                 t_autoSpeak := autoSpeak s;
                                 t_removeOnPick := removeOnPick s |}];
       spoken := spoken s |}.
Proof.
  intros Hne Hidle. unfold handleSpin. rewrite Hidle.
  destruct (items s) as [|x l] eqn:E; [congruence|reflexivity].
Qed.

Lemma handleSpin_rejected (u1 u2 : Q) (s : State) :
  items s = [] \/ isSpinning s = true -> handleSpin u1 u2 s = s.
Proof.
  intros [H|H]; unfold handleSpin; rewrite H; simpl; [reflexivity|].
  rewrite orb_true_r. reflexivity.
Qed.

Lemma speakAgain_frame (s : State) :
  items (speakAgain s) = items s /\ history (speakAgain s) = history s /\
  spinCount (speakAgain s) = spinCount s /\ rotation (speakAgain s) = rotation s /\
  isSpinning (speakAgain s) = isSpinning s /\ timers (speakAgain s) = timers s /\
  rawList (speakAgain s) = rawList s.
Proof.
  unfold speakAgain. destruct (history s) as [|[t|] h] eqn:E; try destruct (truthy t);
    simpl; rewrite ?E; repeat split; reflexivity.
Qed.

(** While a spin is in progress nothing but the timer ends it, and no second
    timer is started. *)
Lemma spinning_step (e : Event) (s : State) :
  e <> ETimerElapsed -> isSpinning s = true ->
  isSpinning (step e s) = true /\ timers (step e s) = timers s.
Proof.
  intros Hne Hs. destruct e; simpl; try congruence; try (split; [assumption|reflexivity]).
  - unfold applyList. destruct (0 <? _); simpl; auto.
  - rewrite handleSpin_rejected by auto. auto.
  - destruct (speakAgain_frame s) as (_ & _ & _ & _ & H1 & H2 & _).
    split; congruence.
Qed.

Lemma spinning_run (evs : list Event) (s : State) :
  Forall (fun e => e <> ETimerElapsed) evs -> isSpinning s = true ->
  isSpinning (run evs s) = true /\ timers (run evs s) = timers s.
Proof.
  intros Hall. revert s. induction Hall as [|e evs He _ IH]; intros s Hs; simpl.
  - auto.
  - destruct (spinning_step e s He Hs) as [H1 H2].
    destruct (IH (step e s) H1) as [H3 H4]. split; congruence.
Qed.

Lemma passive_step (e : Event) (s : State) :
  passive e = true -> isSpinning s = true ->
  items (step e s) = items s /\ history (step e s) = history s /\
  spinCount (step e s) = spinCount s /\ rotation (step e s) = rotation s.
Proof.
  intros Hp Hs. destruct e; simpl in *; try discriminate; auto.
  - rewrite handleSpin_rejected by auto. auto.
  - destruct (speakAgain_frame s) as (H1 & H2 & H3 & H4 & _). auto.
Qed.

Lemma passive_not_timer (e : Event) : passive e = true -> e <> ETimerElapsed.
Proof. destruct e; simpl; congruence. Qed.

Lemma passive_run (evs : list Event) (s : State) :
  forallb passive evs = true -> isSpinning s = true ->
  items (run evs s) = items s /\ history (run evs s) = history s /\
  spinCount (run evs s) = spinCount s /\ rotation (run evs s) = rotation s.
Proof.
  revert s. induction evs as [|e evs IH]; intros s Hall Hs; simpl in *.
  - auto.
  - apply andb_true_iff in Hall as [He Hall].
    destruct (passive_step e s He Hs) as (H1 & H2 & H3 & H4).
    destruct (spinning_step e s (passive_not_timer e He) Hs) as [Hs' _].
    destruct (IH (step e s) Hall Hs') as (H5 & H6 & H7 & H8).
    repeat split; congruence.
Qed.

Lemma timerElapsed_single (t : Timer) (s : State) :
  timers s = [t] -> timerElapsed s = runTimer t [] s.
Proof. intros H. unfold timerElapsed. rewrite H. reflexivity. Qed.

(** C2, as amended. A spin request on a non-empty pool, accepted in an
    idle state, raises [spinCount] by exactly one; when its timer elapses,
    the front of the history is the item that was at the selected index at
    request time, whatever happened in between.  When no apply, reset or
    preset happened in between (edits of the text box, of the tick boxes,
    "speak again" and further clicks on the spin button may have), the
    history is the old one with that item in front, the count is still one
    more than before, and if "remove after spin" was ticked when the spin
    was requested the pool is the request-time pool without the element at
    the selected position, the others in their order (one element less);
    if it was not ticked then, the pool is as it was. *)
Theorem spin_completion (s : State) (u1 u2 : Q) (evs : list Event) :
  valid_draw u1 -> items s <> [] -> isSpinning s = false -> timers s = [] ->
  Forall (fun e => e <> ETimerElapsed) evs ->
  exists picked : string,
    items s !! pickIndex u1 (length (items s)) = Some picked /\
    spinCount (handleSpin u1 u2 s) = S (spinCount s) /\
    head (history (timerElapsed (run evs (handleSpin u1 u2 s)))) = Some (Some picked) /\
    isSpinning (timerElapsed (run evs (handleSpin u1 u2 s))) = false /\
    (forallb passive evs = true ->
     history (timerElapsed (run evs (handleSpin u1 u2 s))) = Some picked :: history s /\
     spinCount (timerElapsed (run evs (handleSpin u1 u2 s))) = S (spinCount s) /\
     (removeOnPick s = true ->
      items (timerElapsed (run evs (handleSpin u1 u2 s)))
        = take (pickIndex u1 (length (items s))) (items s)
          ++ drop (S (pickIndex u1 (length (items s)))) (items s) /\
      S (length (items (timerElapsed (run evs (handleSpin u1 u2 s)))))
        = length (items s)) /\
     (removeOnPick s = false ->
      items (timerElapsed (run evs (handleSpin u1 u2 s))) = items s)).
Proof.
  intros Hu Hne Hidle Hnone Hevs.
  assert (Hlen : 0 < length (items s)) by (destruct (items s); [congruence|simpl; lia]).
  pose proof (pickIndex_lt u1 _ Hu Hlen) as Hidx.
  destruct (lookup_lt_is_Some_2 (items s) _ Hidx) as [picked Hpicked].
  exists picked. split; [exact Hpicked|].
  rewrite (handleSpin_accepted u1 u2 s Hne Hidle), Hnone. simpl app.
  set (idx := pickIndex u1 (length (items s))) in *.
  set (t := {| t_items := items s; t_idx := idx;
               t_autoSpeak := autoSpeak s; t_removeOnPick := removeOnPick s |}).
  set (s1 := mkState _ _ _ _ _ _ _ _ _ _ _).
  assert (Hs1 : isSpinning s1 = true) by reflexivity.
  destruct (spinning_run evs s1 Hevs Hs1) as [_ Htimers].
  change (timers s1) with [t] in Htimers.
  rewrite (timerElapsed_single t _ Htimers).
  split; [reflexivity|]. split; [simpl; rewrite Hpicked; reflexivity|].
  split; [reflexivity|].
  intros Hpassive.
  destruct (passive_run evs s1 Hpassive Hs1) as (Hi & Hh & Hc & _).
  simpl. rewrite Hi, Hh, Hc, Hpicked. simpl.
  split; [reflexivity|]. split; [reflexivity|]. split.
  - intros Hrm. rewrite Hrm, filter_index_removes. split; [reflexivity|].
    rewrite <- delete_take_drop, length_delete by eauto. lia.
  - intros Hrm. rewrite Hrm. reflexivity.
Qed.

(** C2 as stated fails.  With "remove after spin" ticked and the pool
    [X, Y, Z], a spin selects position 1; the preset is chosen while the
    wheel turns.  At completion the pool is the preset without its second
    label, 74 labels and not [X, Z], and the spin count is 0, not one more
    than before the request.  And when the box is ticked only while the
    wheel turns, it is ticked at completion and nothing is removed. *)
Lemma completion_after_preset_or_tick :
  removeOnPick xyzSession = true /\
  items xyzSession = ["X"; "Y"; "Z"] /\
  spinCount xyzSession = 0 /\
  pickIndex (1 # 2) (length (items xyzSession)) = 1 /\
  length (items (timerElapsed (run [ESetClassicBingo] (handleSpin (1 # 2) 0 xyzSession))))
    = 74 /\
  items (timerElapsed (run [ESetClassicBingo] (handleSpin (1 # 2) 0 xyzSession)))
    <> ["X"; "Z"] /\
  spinCount (timerElapsed (run [ESetClassicBingo] (handleSpin (1 # 2) 0 xyzSession)))
    <> S (spinCount xyzSession) /\
  removeOnPick (timerElapsed (run [ESetRemoveOnPick true]
                  (handleSpin (1 # 2) 0 (setRemoveOnPick false xyzSession)))) = true /\
  items (timerElapsed (run [ESetRemoveOnPick true]
           (handleSpin (1 # 2) 0 (setRemoveOnPick false xyzSession))))
    = ["X"; "Y"; "Z"].
Proof. vm_compute. repeat split; discriminate. Qed.

(** C3. A spin request while a spin is in progress changes nothing: the
    whole state, with the list of pending timers, is as before. *)
Theorem spin_while_spinning_ignored (s : State) (u1 u2 : Q) :
  isSpinning s = true ->
  handleSpin u1 u2 s = s /\
  isSpinning (handleSpin u1 u2 s) = isSpinning s /\
  rotation (handleSpin u1 u2 s) = rotation s /\
  spinCount (handleSpin u1 u2 s) = spinCount s /\
  history (handleSpin u1 u2 s) = history s /\
  items (handleSpin u1 u2 s) = items s /\
  timers (handleSpin u1 u2 s) = timers s.
Proof.
  intros Hs. rewrite (handleSpin_rejected u1 u2 s) by auto.
  repeat split; reflexivity.
Qed.

Lemma applyList_rejected (s : State) :
  parseList (rawList s) = [] -> applyList s = s.
Proof. intros H. unfold applyList. rewrite H. reflexivity. Qed.

(** C6. Applying a text whose derived list is empty, and requesting a spin
    on an empty pool, both leave the whole state as it was. *)
Theorem empty_requests_ignored (s : State) (u1 u2 : Q) :
  (parseList (rawList s) = [] -> applyList s = s) /\
  (items s = [] -> handleSpin u1 u2 s = s).
Proof.
  split.
  - apply applyList_rejected.
  - intros H. apply handleSpin_rejected. auto.
Qed.

(** ** Pool manager *)

Lemma lastApplied_unedited (evs : list Event) (s : State) (edited : bool) (applied : string) :
  (edited = false -> rawList s = applied) ->
  editedSince evs s edited = false ->
  rawList (run evs s) = lastApplied evs s applied.
Proof.
  revert s edited applied.
  induction evs as [|e evs IH]; intros s edited applied Hinv Hun; simpl in *.
  - auto.
  - eapply IH; [|exact Hun].
    destruct e; simpl; intros He; try discriminate; try (exact (Hinv He)).
    + unfold applyList.
      destruct (0 <? length (parseList (rawList s)))%nat; simpl; auto.
    + reflexivity.
    + rewrite <- (Hinv He). unfold handleSpin.
      destruct ((length (items s) =? 0)%nat || isSpinning s); reflexivity.
    + rewrite <- (Hinv He). unfold timerElapsed.
      destruct (timers s); reflexivity.
    + rewrite <- (Hinv He). apply speakAgain_frame.
Qed.

(** ** Sessions *)

Lemma handleSpin_invariant (u1 u2 : Q) (s : State) :
  valid_draw u1 -> valid_draw u2 ->
  session_invariant s -> session_invariant (handleSpin u1 u2 s).
Proof.
  intros Hu1 Hu2 Hinv.
  destruct (isSpinning s) eqn:Hs.
  { rewrite handleSpin_rejected by auto. exact Hinv. }
  destruct (items s) as [|x l] eqn:Hits.
  { rewrite handleSpin_rejected by auto. exact Hinv. }
  destruct Hinv as (Hrot & Htim & Hhist).
  assert (Hne : items s <> []) by (rewrite Hits; discriminate).
  rewrite (handleSpin_accepted u1 u2 s Hne Hs).
  assert (Hlen : 0 < length (items s)) by (rewrite Hits; simpl; lia).
  pose proof (pickIndex_lt u1 _ Hu1 Hlen) as Hidx.
  destruct Htim as [[Hnone _] | (t & _ & Habs & _)]; [|congruence].
  split; [|split].
  - simpl. pose proof (extraSpins_range u2 Hu2) as Hex.
    assert (Hex1 : (1 <= extraSpins u2)%Z) by lia.
    pose proof (spinTarget_increases (rotation s) _ (items s) _ Hne Hidx Hex1).
    lra.
  - right. simpl. rewrite Hnone. simpl. eexists. repeat split. simpl. exact Hidx.
  - exact Hhist.
Qed.

Lemma timerElapsed_invariant (s : State) :
  session_invariant s -> session_invariant (timerElapsed s).
Proof.
  intros (Hrot & Htim & Hhist). unfold timerElapsed.
  destruct Htim as [[Hnone Hs] | (t & Hone & Hs & Hidx)].
  - rewrite Hnone. split; [|split]; auto.
  - rewrite Hone. split; [|split]; simpl.
    + exact Hrot.
    + left. auto.
    + constructor; [|exact Hhist]. apply lookup_lt_is_Some_2. exact Hidx.
Qed.

Lemma step_invariant (e : Event) (s : State) :
  valid_event e -> session_invariant s -> session_invariant (step e s).
Proof.
  intros Hv Hinv. destruct e; simpl in *.
  - unfold applyList. destruct (0 <? _)%nat; [|exact Hinv].
    destruct Hinv as (_ & Htim & _). split; [|split]; simpl; auto. lra.
  - destruct Hinv as (_ & Htim & _). split; [|split]; simpl; auto. lra.
  - destruct Hinv as (_ & Htim & _). split; [|split]; simpl; auto. lra.
  - destruct Hv. apply handleSpin_invariant; assumption.
  - apply timerElapsed_invariant; assumption.
  - destruct (speakAgain_frame s) as (_ & Hh & _ & Hr & Hs & Ht & _).
    unfold session_invariant. rewrite Hh, Hr, Hs, Ht. exact Hinv.
  - exact Hinv.
  - exact Hinv.
  - exact Hinv.
Qed.

Lemma initialState_invariant : session_invariant initialState.
Proof.
  split; [|split]; simpl.
  - lra.
  - left. auto.
  - constructor.
Qed.

Lemma reachable_invariant (s : State) : reachable s -> session_invariant s.
Proof.
  induction 1 as [|s e _ IH Hv].
  - apply initialState_invariant.
  - apply step_invariant; assumption.
Qed.

Lemma reachable_idle_no_timer (s : State) :
  reachable s -> isSpinning s = false -> timers s = [].
Proof.
  intros Hr Hs. destruct (reachable_invariant s Hr) as (_ & [[H _]|(t & _ & H & _)] & _).
  - exact H.
  - congruence.
Qed.

Lemma reachable_run (evs : list Event) (s : State) :
  reachable s -> Forall valid_event evs -> reachable (run evs s).
Proof.
  intros Hr Hall. revert s Hr.
  induction Hall as [|e evs He _ IH]; intros s Hr; simpl.
  - exact Hr.
  - apply IH. constructor; assumption.
Qed.

Lemma handleSpin_rotation_le (u1 u2 : Q) (s : State) :
  valid_draw u1 -> valid_draw u2 ->
  (rotation s <= rotation (handleSpin u1 u2 s))%Q.
Proof.
  intros Hu1 Hu2.
  destruct (isSpinning s) eqn:Hs.
  { rewrite handleSpin_rejected by auto. apply Qle_refl. }
  destruct (items s) as [|x l] eqn:Hits.
  { rewrite handleSpin_rejected by auto. apply Qle_refl. }
  assert (Hne : items s <> []) by (rewrite Hits; discriminate).
  rewrite (handleSpin_accepted u1 u2 s Hne Hs). simpl rotation.
  assert (Hlen : 0 < length (items s)) by (rewrite Hits; simpl; lia).
  pose proof (pickIndex_lt u1 _ Hu1 Hlen) as Hidx.
  pose proof (extraSpins_range u2 Hu2) as Hex.
  assert (Hex1 : (1 <= extraSpins u2)%Z) by lia.
  pose proof (spinTarget_increases (rotation s) _ (items s) _ Hne Hidx Hex1).
  lra.
Qed.

Lemma step_rotation_le (e : Event) (s : State) :
  valid_event e -> clearing e = false ->
  (rotation s <= rotation (step e s))%Q.
Proof.
  intros Hv Hc. destruct e; simpl in *; try discriminate; try apply Qle_refl.
  - destruct Hv. apply handleSpin_rotation_le; assumption.
  - unfold timerElapsed. destruct (timers s); apply Qle_refl.
  - destruct (speakAgain_frame s) as (_ & _ & _ & Hr & _). rewrite Hr. apply Qle_refl.
Qed.

Lemma run_rotation_le (evs : list Event) (s : State) :
  Forall valid_event evs -> forallb (fun e => negb (clearing e)) evs = true ->
  (rotation s <= rotation (run evs s))%Q.
Proof.
  intros Hall. revert s.
  induction Hall as [|e evs He _ IH]; intros s Hc; simpl in *.
  - apply Qle_refl.
  - apply andb_true_iff in Hc as [Hc1 Hc2].
    apply negb_true_iff in Hc1.
    eapply Qle_trans; [apply (step_rotation_le e s He Hc1)|].
    apply IH. exact Hc2.
Qed.

(** ** Claims on the pool manager and on the rotation across a session *)

(** C4, as amended. Reset derives the pool from the text now in the text
    box (split at line ends, each piece trimmed, empty pieces dropped) and
    empties the history, with rotation and spin count at zero.  That text is
    the last applied one as long as the box was not edited after the last
    accepted apply or preset. *)
Theorem reset_restores_current_text (s : State) (evs : list Event) :
  items (resetList s) = parseList (rawList s) /\
  history (resetList s) = [] /\
  rotation (resetList s) = 0%Q /\
  spinCount (resetList s) = 0 /\
  (editedSince evs initialState false = false ->
   items (resetList (run evs initialState)) = parseList (lastAppliedText evs)).
Proof.
  repeat split.
  intros Hun. simpl. unfold lastAppliedText.
  rewrite (lastApplied_unedited evs initialState false defaultWords); auto.
Qed.

Lemma reset_restores_current_text_witness :
  items (resetList (run [ESetRawList xyzText; EApplyList; EHandleSpin (1 # 2) 0]
                        initialState))
  = parseList (lastAppliedText [ESetRawList xyzText; EApplyList; EHandleSpin (1 # 2) 0]).
Proof.
  apply (reset_restores_current_text initialState
           [ESetRawList xyzText; EApplyList; EHandleSpin (1 # 2) 0]).
  reflexivity.
Defined.

(** C4 as stated fails: after an edit of the text box that was never
    applied, reset takes the edited text, not the last applied one. *)
Lemma reset_takes_unapplied_text :
  items (resetList (run [ESetRawList "X"] initialState)) = ["X"] /\
  parseList (lastAppliedText [ESetRawList "X"]) = defaultItems /\
  items (resetList (run [ESetRawList "X"] initialState))
    <> parseList (lastAppliedText [ESetRawList "X"]).
Proof. vm_compute. repeat split; discriminate. Qed.

(** C5, as amended. When the list derived from the text box is not empty,
    apply makes it the pool, empties the history, and sets rotation and spin
    count to zero; it leaves the spinning flag and the pending timer as they
    were. *)
Theorem applyList_accepted (s : State) :
  parseList (rawList s) <> [] ->
  items (applyList s) = parseList (rawList s) /\
  history (applyList s) = [] /\
  rotation (applyList s) = 0%Q /\
  spinCount (applyList s) = 0 /\
  selectedIndex (applyList s) = None /\
  isSpinning (applyList s) = isSpinning s /\
  timers (applyList s) = timers s.
Proof.
  intros Hne. unfold applyList.
  destruct (parseList (rawList s)) as [|x l]; [congruence|].
  repeat split.
Qed.

Lemma applyList_accepted_witness :
  items (applyList spinningSession) = parseList (rawList spinningSession) /\
  history (applyList spinningSession) = [] /\
  rotation (applyList spinningSession) = 0%Q /\
  spinCount (applyList spinningSession) = 0 /\
  selectedIndex (applyList spinningSession) = None /\
  isSpinning (applyList spinningSession) = isSpinning spinningSession /\
  timers (applyList spinningSession) = timers spinningSession.
Proof. apply (applyList_accepted spinningSession). vm_compute. discriminate. Defined.

(** C5 as stated fails: an apply while a spin is in progress leaves the
    state Spinning. *)
Lemma applyList_keeps_spinning :
  reachable spinningSession /\
  parseList (rawList spinningSession) <> [] /\
  isSpinning (applyList spinningSession) = true.
Proof.
  split; [|split].
  - apply (reachable_step initialState (EHandleSpin (1 # 2) (1 # 2))).
    + apply reachable_init.
    + simpl. unfold valid_draw. lra.
  - vm_compute. discriminate.
  - vm_compute. reflexivity.
Qed.

(** C7, as amended. Over any run of events with no apply, reset or preset
    in it (spin requests, timer completions with their removals, edits of
    the text box and of the tick boxes, "speak again") the rotation does
    not decrease, so a spin target is not below the one before it; a reset
    and the preset set the rotation to zero, and so does an apply that is
    accepted. *)
Theorem rotation_monotone_between_clearings (s : State) (evs : list Event) :
  Forall valid_event evs ->
  forallb (fun e => negb (clearing e)) evs = true ->
  (rotation s <= rotation (run evs s))%Q /\
  rotation (resetList s) = 0%Q /\
  rotation (setClassicBingo s) = 0%Q /\
  (parseList (rawList s) <> [] -> rotation (applyList s) = 0%Q).
Proof.
  intros Hall Hc. split; [|split; [|split]].
  - apply run_rotation_le; assumption.
  - reflexivity.
  - reflexivity.
  - intros Hne. unfold applyList.
    destruct (parseList (rawList s)) as [|x l]; [congruence | reflexivity].
Qed.

Lemma rotation_monotone_between_clearings_witness :
  (rotation initialState
   <= rotation (run [EHandleSpin (1 # 2) (1 # 2); ETimerElapsed; EHandleSpin (1 # 3) 0]
                    initialState))%Q /\
  rotation (applyList spunSession) = 0%Q.
Proof.
  destruct (rotation_monotone_between_clearings initialState
              [EHandleSpin (1 # 2) (1 # 2); ETimerElapsed; EHandleSpin (1 # 3) 0])
    as [H _].
  - repeat constructor; simpl; unfold valid_draw; lra.
  - reflexivity.
  - split; [exact H|].
    destruct (rotation_monotone_between_clearings spunSession []) as (_ & _ & _ & Ha).
    + constructor.
    + reflexivity.
    + apply Ha. vm_compute. discriminate.
Defined.

(** C7 as stated fails: a reset after a completed spin takes the rotation
    from 3060 degrees back to zero. *)
Lemma reset_rewinds_rotation :
  reachable spunSession /\
  (rotation spunSession == 3060)%Q /\
  (rotation (step EResetList spunSession) == 0)%Q /\
  ~ (rotation spunSession <= rotation (step EResetList spunSession))%Q.
Proof.
  split; [|split; [|split]].
  - apply (reachable_step spinningSession ETimerElapsed); [|exact I].
    apply (reachable_step initialState (EHandleSpin (1 # 2) (1 # 2))).
    + apply reachable_init.
    + simpl. unfold valid_draw. lra.
  - vm_compute. reflexivity.
  - vm_compute. reflexivity.
  - vm_compute. intros H. apply H. reflexivity.
Qed.

(** C8, as amended. The slice angle is [360 / length] for a pool with at
    least one item, and the number 0 for the empty pool. *)
Theorem sliceAngle_value (its : list string) :
  (0 < length its -> (sliceAngle its == 360 / Qnat (length its))%Q) /\
  (length its = 0 -> sliceAngle its = 0%Q).
Proof.
  split; intros H; destruct its as [|x l]; simpl in H; try lia.
  - unfold sliceAngle. simpl Nat.ltb. reflexivity.
  - reflexivity.
Qed.

Lemma sliceAngle_value_witness :
  (sliceAngle ["A"; "B"] == 360 / Qnat 2)%Q /\ sliceAngle [] = 0%Q.
Proof.
  split.
  - apply (proj1 (sliceAngle_value ["A"; "B"])). simpl. lia.
  - apply (proj2 (sliceAngle_value [])). reflexivity.
Defined.

(** C8 as stated fails: for the empty pool the code returns the number 0,
    where the specification names a sentinel that is not a number. *)
Lemma sliceAngle_empty_is_a_number :
  sliceAngle_spec [] = None /\
  sliceAngle [] = 0%Q /\
  ~ agrees (sliceAngle_spec []) (sliceAngle []).
Proof. repeat split. intros H. exact H. Qed.

(** C9. The preset generator yields 75 labels without duplicates: the five
    bands B, I, N, G, O in this order, 15 labels each, over the numbers
    1-15, 16-30, 31-45, 46-60 and 61-75, each label the band letter followed
    by the number in decimal. *)
Theorem classicBingo_preset :
  length classicBingoItems = 75 /\
  NoDup classicBingoItems /\
  classicBingoItems = presetSpec /\
  (forall k, length (presetBand k) = 15) /\
  classicBingoItems !! 0 = Some "B1" /\
  classicBingoItems !! 14 = Some "B15" /\
  classicBingoItems !! 15 = Some "I16" /\
  classicBingoItems !! 44 = Some "N45" /\
  classicBingoItems !! 45 = Some "G46" /\
  classicBingoItems !! 74 = Some "O75".
Proof.
  split; [reflexivity|]. split.
  - apply (bool_decide_unpack (NoDup classicBingoItems)). vm_compute. exact I.
  - split; [vm_compute; reflexivity|].
    split; [intros k; unfold presetBand; rewrite length_map, length_seq; reflexivity|].
    repeat split; vm_compute; reflexivity.
Qed.

(** C10. The preset stores the labels joined by line feeds as the raw text,
    so a reset right after the preset gives the same pool of 75 labels as
    the preset alone. *)
Theorem reset_after_preset (s : State) :
  rawList (setClassicBingo s) = String.concat newline classicBingoItems /\
  items (setClassicBingo s) = classicBingoItems /\
  items (resetList (setClassicBingo s)) = items (setClassicBingo s) /\
  length (items (resetList (setClassicBingo s))) = 75.
Proof.
  assert (H : parseList (String.concat newline classicBingoItems) = classicBingoItems)
    by (vm_compute; reflexivity).
  split; [reflexivity|]. split; [reflexivity|]. split.
  - exact H.
  - change (length (parseList (String.concat newline classicBingoItems)) = 75).
    rewrite H. reflexivity.
Qed.

(** ** The claims at sample inputs *)


(** The scenario of the specification: pool [A, B], rotation 0, index 1. *)
Example planner_scenario :
  (sliceAngle ["A"; "B"] == 180 /\
   centerAngle 1 (sliceAngle ["A"; "B"]) == 270 /\
   deltaToZero (centerAngle 1 (sliceAngle ["A"; "B"])) (normalize 0) == 90 /\
   spinTarget 0 1 (sliceAngle ["A"; "B"]) 6 == 6 * 360 + 90 /\
   spinTarget 0 1 (sliceAngle ["A"; "B"]) 9 == 9 * 360 + 90 /\
   js_rem (spinTarget 0 1 (sliceAngle ["A"; "B"]) 9) 360 == 90)%Q.
Proof. vm_compute. repeat split; reflexivity. Qed.

Lemma spin_completion_witness :
  head (history (timerElapsed
          (run [ESetAutoSpeak false; EHandleSpin (1 # 3) (1 # 3)]
               (handleSpin (1 # 2) 0 xyzSession)))) = Some (Some "Y") /\
  items (timerElapsed
          (run [ESetAutoSpeak false; EHandleSpin (1 # 3) (1 # 3)]
               (handleSpin (1 # 2) 0 xyzSession))) = ["X"; "Z"] /\
  spinCount (timerElapsed
          (run [ESetAutoSpeak false; EHandleSpin (1 # 3) (1 # 3)]
               (handleSpin (1 # 2) 0 xyzSession))) = 1.
Proof.
  destruct (spin_completion xyzSession (1 # 2) 0
              [ESetAutoSpeak false; EHandleSpin (1 # 3) (1 # 3)])
    as (picked & Hp & _ & Hh & _ & Hpass).
  - unfold valid_draw. lra.
  - vm_compute. discriminate.
  - reflexivity.
  - reflexivity.
  - repeat constructor; discriminate.
  - vm_compute in Hp. injection Hp as <-.
    destruct (Hpass eq_refl) as (_ & Hc & Hrm & _).
    destruct (Hrm eq_refl) as [Hi _].
    split; [exact Hh|]. split; [rewrite Hi; reflexivity | rewrite Hc; reflexivity].
Defined.

(** The scenario of the specification: "remove after spin" ticked, pool
    [X, Y, Z], a spin that selects Y. *)
Example removal_scenario :
  items xyzSession = ["X"; "Y"; "Z"] /\
  pickIndex (1 # 2) (length (items xyzSession)) = 1 /\
  items (timerElapsed (handleSpin (1 # 2) 0 xyzSession)) = ["X"; "Z"] /\
  history (timerElapsed (handleSpin (1 # 2) 0 xyzSession)) = [Some "Y"].
Proof. vm_compute. repeat split; reflexivity. Qed.

(** What the timer does when the preset is chosen while the wheel spins: the
    element at the selected position of the new pool is removed, and the
    history shows the item picked from the old one. *)
Example preset_during_spin :
  let s := run [ESetRemoveOnPick true; EHandleSpin (1 # 2) (1 # 2);
                ESetClassicBingo; ETimerElapsed] initialState in
  history s = [Some "N33"] /\ length (items s) = 74 /\
  items s !! 12 = Some "B14" /\ spinCount s = 0.
Proof. vm_compute. repeat split; reflexivity. Qed.

Lemma spin_while_spinning_ignored_witness :
  handleSpin (1 # 3) (1 # 3) spinningSession = spinningSession /\
  timers (handleSpin (1 # 3) (1 # 3) spinningSession) = timers spinningSession.
Proof.
  destruct (spin_while_spinning_ignored spinningSession (1 # 3) (1 # 3))
    as (H & _ & _ & _ & _ & _ & Ht).
  - reflexivity.
  - split; [exact H | exact Ht].
Defined.

Lemma empty_requests_ignored_witness :
  applyList emptySession = emptySession /\
  handleSpin (1 # 2) (1 # 2) emptySession = emptySession.
Proof.
  destruct (empty_requests_ignored emptySession (1 # 2) (1 # 2)) as [Ha Hs].
  split; [apply Ha; reflexivity | apply Hs; reflexivity].
Defined.

(** ** Further facts on the engine *)

(** The labels of the preset, written out. *)
Example classicBingoItems_listing :
  classicBingoItems =
  ["B1"; "B2"; "B3"; "B4"; "B5"; "B6"; "B7"; "B8"; "B9"; "B10"; "B11";
   "B12"; "B13"; "B14"; "B15"; "I16"; "I17"; "I18"; "I19"; "I20"; "I21";
   "I22"; "I23"; "I24"; "I25"; "I26"; "I27"; "I28"; "I29"; "I30"; "N31";
   "N32"; "N33"; "N34"; "N35"; "N36"; "N37"; "N38"; "N39"; "N40"; "N41";
   "N42"; "N43"; "N44"; "N45"; "G46"; "G47"; "G48"; "G49"; "G50"; "G51";
   "G52"; "G53"; "G54"; "G55"; "G56"; "G57"; "G58"; "G59"; "G60"; "O61";
   "O62"; "O63"; "O64"; "O65"; "O66"; "O67"; "O68"; "O69"; "O70"; "O71";
   "O72"; "O73"; "O74"; "O75"].
Proof. vm_compute. reflexivity. Qed.

(** Every piece kept by the parser is non-empty. *)
Lemma parseList_truthy (raw : string) :
  Forall (fun piece => truthy piece = true) (parseList raw).
Proof.
  unfold parseList. apply List.Forall_forall. intros piece Hin.
  apply List.filter_In in Hin. tauto.
Qed.

(** Every position of the pool can be drawn. *)
Lemma pickIndex_covers (i n : nat) :
  i < n -> valid_draw (Qnat i / Qnat n) /\ pickIndex (Qnat i / Qnat n) n = i.
Proof.
  intros Hlt.
  assert (HN : (0 < Qnat n)%Q).
  { unfold Qnat. change 0%Q with (inject_Z 0). rewrite <- Zlt_Qlt. lia. }
  pose proof (Qnat_nonneg i) as HI. pose proof (Qnat_lt i n Hlt) as HIN.
  assert (Hinv : (0 < / Qnat n)%Q) by (apply Qinv_lt_0_compat; exact HN).
  split.
  - unfold valid_draw, Qdiv. split.
    + apply Qmult_le_0_compat; lra.
    + apply Qlt_shift_div_r; lra.
  - unfold pickIndex.
    assert (E : (Qnat i / Qnat n * Qnat n == inject_Z (Z.of_nat i))%Q).
    { change (inject_Z (Z.of_nat i)) with (Qnat i). field. lra. }
    rewrite (Qfloor_comp _ _ E), Qfloor_Z. apply Nat2Z.id.
Qed.

(** An accepted spin, end to end: the new rotation is ahead of the old
    one, and its residue puts the centre of the drawn slice at the
    pointer. *)
Lemma accepted_spin_aligns (s : State) (u1 u2 : Q) :
  valid_draw u1 -> valid_draw u2 -> items s <> [] -> isSpinning s = false ->
  (rotation s < rotation (handleSpin u1 u2 s) /\
   Qmod (rotation (handleSpin u1 u2 s)) 360
     == 360 - centerAngle (pickIndex u1 (length (items s))) (sliceAngle (items s)))%Q /\
  selectedIndex (handleSpin u1 u2 s) = Some (pickIndex u1 (length (items s))) /\
  pickIndex u1 (length (items s)) < length (items s).
Proof.
  intros Hu1 Hu2 Hne Hs.
  assert (Hlen : 0 < length (items s)) by (destruct (items s); [congruence|simpl; lia]).
  pose proof (pickIndex_lt u1 _ Hu1 Hlen) as Hidx.
  rewrite (handleSpin_accepted u1 u2 s Hne Hs). simpl rotation. simpl selectedIndex.
  split; [split|split; [reflexivity|exact Hidx]].
  - pose proof (extraSpins_range u2 Hu2) as [Hex _].
    assert (Hex1 : (1 <= extraSpins u2)%Z) by lia.
    pose proof (spinTarget_increases (rotation s) _ (items s) _ Hne Hidx Hex1). lra.
  - apply spinTarget_residue; assumption.
Qed.

(** * Further properties of the code *)

(** ** Text list input *)

Lemma string_pair_ind (P : string -> Prop) :
  P EmptyString ->
  (forall c, P (String c EmptyString)) ->
  (forall c c' r, P r -> P (String c' r) -> P (String c (String c' r))) ->
  forall s, P s.
Proof.
  intros H0 H1 H2 s.
  assert (H : P s /\ forall c, P (String c s)).
  { induction s as [|c' r [IHr IHc]].
    - split; [exact H0 | exact H1].
    - split; [apply IHc|]. intros c. apply H2; [exact IHr | apply IHc]. }
  apply H.
Qed.

Lemma split_lines_cons (c : ascii) (rest : string) :
  split_lines (String c rest) =
  if Ascii.eqb c LF then EmptyString :: split_lines rest
  else if Ascii.eqb c CR then
    match rest with
    | String c' rest' =>
        if Ascii.eqb c' LF then EmptyString :: split_lines rest'
        else cons_char c (split_lines rest)
    | EmptyString => cons_char c (split_lines rest)
    end
  else cons_char c (split_lines rest).
Proof. reflexivity. Qed.

Lemma split_lines_nonempty (s : string) : split_lines s <> [].
Proof.
  induction s as [| c | c c' r IHr IHc] using string_pair_ind.
  - discriminate.
  - rewrite split_lines_cons.
    destruct (Ascii.eqb c LF); [discriminate|].
    destruct (Ascii.eqb c CR); discriminate.
  - rewrite split_lines_cons.
    destruct (Ascii.eqb c LF); [discriminate|].
    assert (K : cons_char c (split_lines (String c' r)) <> []).
    { destruct (split_lines (String c' r)); [congruence | discriminate]. }
    destruct (Ascii.eqb c CR); [|exact K].
    destruct (Ascii.eqb c' LF); [discriminate | exact K].
Qed.

Lemma cons_char_app (c : ascii) (l tail : list string) :
  l <> [] -> cons_char c (l ++ tail) = cons_char c l ++ tail.
Proof. destruct l as [|x l]; [congruence | reflexivity]. Qed.

Lemma append_cons (c : ascii) (s1 s2 : string) :
  String c s1 +:+ s2 = String c (s1 +:+ s2).
Proof. reflexivity. Qed.

Lemma append_nil (s : string) : EmptyString +:+ s = s.
Proof. reflexivity. Qed.

(** A Windows line end between two texts separates their pieces. *)
Lemma split_lines_app_crlf (s1 s2 : string) :
  split_lines (s1 +:+ crlf +:+ s2) = split_lines s1 ++ split_lines s2.
Proof.
  unfold crlf, newline. rewrite !append_cons, append_nil.
  induction s1 as [| c | c c' r IHr IHc] using string_pair_ind.
  - reflexivity.
  - rewrite append_cons, append_nil, !split_lines_cons.
    change (Ascii.eqb CR LF) with false. cbn [split_lines cons_char].
    destruct (Ascii.eqb c LF); [reflexivity|].
    destruct (Ascii.eqb c CR); reflexivity.
  - rewrite !append_cons in *. rewrite (split_lines_cons c).
    rewrite (split_lines_cons c (String c' r)).
    destruct (Ascii.eqb c LF).
    + rewrite IHc. reflexivity.
    + assert (K : cons_char c (split_lines (String c' (r +:+ String CR (String LF s2))))
                  = cons_char c (split_lines (String c' r)) ++ split_lines s2).
      { rewrite IHc. apply cons_char_app, split_lines_nonempty. }
      destruct (Ascii.eqb c CR); [|exact K].
      destruct (Ascii.eqb c' LF); [|exact K].
      rewrite IHr. reflexivity.
Qed.

(** A line feed between two texts separates their pieces; the piece in
    front of it loses the carriage return it may end with. *)
Lemma split_lines_app_LF (s1 s2 : string) :
  exists (front : list string) (p p' : string),
    split_lines s1 = front ++ [p] /\
    split_lines (s1 +:+ String LF s2) = front ++ p' :: split_lines s2 /\
    (p = p' \/ p = p' +:+ String CR EmptyString).
Proof.
  assert (Hkeep : forall c s,
    (exists front p p', split_lines s = front ++ [p] /\
       split_lines (s +:+ String LF s2) = front ++ p' :: split_lines s2 /\
       (p = p' \/ p = p' +:+ String CR EmptyString)) ->
    exists front p p', cons_char c (split_lines s) = front ++ [p] /\
       cons_char c (split_lines (s +:+ String LF s2)) = front ++ p' :: split_lines s2 /\
       (p = p' \/ p = p' +:+ String CR EmptyString)).
  { intros c s (front & p & p' & E1 & E2 & Hp). rewrite E1, E2.
    destruct front as [|f fs].
    - exists [], (String c p), (String c p'). repeat split.
      destruct Hp as [->| ->]; [left; reflexivity | right; reflexivity].
    - exists (String c f :: fs), p, p'. repeat split. exact Hp. }
  assert (Hsep : forall s,
    (exists front p p', split_lines s = front ++ [p] /\
       split_lines (s +:+ String LF s2) = front ++ p' :: split_lines s2 /\
       (p = p' \/ p = p' +:+ String CR EmptyString)) ->
    exists front p p', EmptyString :: split_lines s = front ++ [p] /\
       EmptyString :: split_lines (s +:+ String LF s2) = front ++ p' :: split_lines s2 /\
       (p = p' \/ p = p' +:+ String CR EmptyString)).
  { intros s (front & p & p' & E1 & E2 & Hp). rewrite E1, E2.
    exists (EmptyString :: front), p, p'. repeat split. exact Hp. }
  induction s1 as [| c | c c' r IHr IHc] using string_pair_ind.
  - exists [], EmptyString, EmptyString. repeat split. left. reflexivity.
  - rewrite append_cons, append_nil, !split_lines_cons.
    change (Ascii.eqb LF LF) with true. cbn [split_lines cons_char].
    destruct (Ascii.eqb c LF).
    + exists [EmptyString], EmptyString, EmptyString. repeat split. left. reflexivity.
    + destruct (Ascii.eqb_spec c CR) as [->|_].
      * exists [], (String CR EmptyString), EmptyString. repeat split.
        right. reflexivity.
      * exists [], (String c EmptyString), (String c EmptyString). repeat split.
        left. reflexivity.
  - rewrite append_cons. rewrite (split_lines_cons c (String c' r)).
    rewrite (split_lines_cons c (String c' r +:+ String LF s2)).
    rewrite append_cons in *.
    destruct (Ascii.eqb c LF).
    + apply Hsep. rewrite append_cons. exact IHc.
    + pose proof (Hkeep c (String c' r)) as K. rewrite append_cons in K.
      destruct (Ascii.eqb c CR); [|exact (K IHc)].
      destruct (Ascii.eqb c' LF); [|exact (K IHc)].
      apply Hsep. exact IHr.
Qed.

Lemma trimEnd_snoc_whitespace (y : string) (w : ascii) :
  is_whitespace w = true -> trimEnd (y +:+ String w EmptyString) = trimEnd y.
Proof.
  intros Hw. induction y as [|c y IH].
  - rewrite append_nil. simpl. rewrite Hw. reflexivity.
  - rewrite append_cons. simpl. rewrite IH. reflexivity.
Qed.

Lemma trim_snoc_whitespace (x : string) (w : ascii) :
  is_whitespace w = true -> trim (x +:+ String w EmptyString) = trim x.
Proof.
  intros Hw. unfold trim. induction x as [|c x IH].
  - rewrite append_nil. simpl. rewrite Hw. reflexivity.
  - rewrite append_cons. simpl. destruct (is_whitespace c).
    + exact IH.
    + rewrite <- append_cons. apply trimEnd_snoc_whitespace. exact Hw.
Qed.

Lemma parseList_app_LF (s1 s2 : string) :
  parseList (s1 +:+ newline +:+ s2) = parseList s1 ++ parseList s2.
Proof.
  unfold newline. rewrite append_cons, append_nil.
  destruct (split_lines_app_LF s1 s2) as (front & p & p' & E1 & E2 & Hp).
  unfold parseList. rewrite E1, E2.
  rewrite !List.map_app, !List.filter_app. simpl List.map. simpl List.filter.
  assert (Ht : trim p = trim p').
  { destruct Hp as [->| ->]; [reflexivity|]. apply trim_snoc_whitespace. reflexivity. }
  rewrite Ht. rewrite <- !List.app_assoc.
  destruct (truthy (trim p')); reflexivity.
Qed.

Lemma parseList_app_crlf (s1 s2 : string) :
  parseList (s1 +:+ crlf +:+ s2) = parseList s1 ++ parseList s2.
Proof.
  unfold parseList. rewrite split_lines_app_crlf, List.map_app, List.filter_app.
  reflexivity.
Qed.

Lemma trimEnd_cons (c : ascii) (r : string) :
  is_whitespace c = false -> trimEnd (String c r) = String c (trimEnd r).
Proof. intros Hc. simpl. rewrite Hc. destruct (trimEnd r); reflexivity. Qed.

Lemma trimEnd_idempotent (s : string) : trimEnd (trimEnd s) = trimEnd s.
Proof.
  induction s as [|c r IH]; [reflexivity|]. simpl.
  destruct (trimEnd r) as [|c' r'] eqn:E.
  - destruct (is_whitespace c) eqn:Hc; [reflexivity|]. simpl. rewrite Hc. reflexivity.
  - change (trimEnd (String c (String c' r'))) with
      (match trimEnd (String c' r') with
       | EmptyString => if is_whitespace c then EmptyString else String c EmptyString
       | rest' => String c rest'
       end).
    rewrite IH. reflexivity.
Qed.

Lemma trimStart_head (s : string) :
  trimStart s = EmptyString \/
  exists c r, trimStart s = String c r /\ is_whitespace c = false.
Proof.
  induction s as [|c r IH]; [left; reflexivity|]. simpl.
  destruct (is_whitespace c) eqn:Hc; [exact IH|]. right. eauto.
Qed.

Lemma trim_idempotent (s : string) : trim (trim s) = trim s.
Proof.
  unfold trim. destruct (trimStart_head s) as [E | (c & r & E & Hc)]; rewrite E.
  - reflexivity.
  - rewrite (trimEnd_cons c r Hc). simpl trimStart. rewrite Hc.
    rewrite <- (trimEnd_cons c r Hc). apply trimEnd_idempotent.
Qed.

Lemma trimStart_mem (c : ascii) (s : string) :
  mem_char c s = false -> mem_char c (trimStart s) = false.
Proof.
  induction s as [|c' r IH]; [reflexivity|]. intros H. simpl.
  destruct (is_whitespace c'); [|exact H].
  apply IH. simpl in H. apply orb_false_iff in H. tauto.
Qed.

Lemma trimEnd_mem (c : ascii) (s : string) :
  mem_char c s = false -> mem_char c (trimEnd s) = false.
Proof.
  induction s as [|c' r IH]; [reflexivity|]. intros H. simpl in *.
  apply orb_false_iff in H as [H1 H2]. specialize (IH H2).
  destruct (trimEnd r) as [|c2 r2].
  - destruct (is_whitespace c'); [reflexivity|]. simpl. rewrite H1. reflexivity.
  - simpl in *. rewrite H1. exact IH.
Qed.

Lemma cons_char_no_LF (c : ascii) (l : list string) :
  Ascii.eqb c LF = false ->
  Forall (fun p => mem_char LF p = false) l ->
  Forall (fun p => mem_char LF p = false) (cons_char c l).
Proof.
  intros Hc Hl. destruct Hl as [|p l Hp Hl]; simpl.
  - constructor; [|constructor]. simpl. rewrite Hc. reflexivity.
  - constructor; [|exact Hl]. simpl. rewrite Hc. exact Hp.
Qed.

Lemma split_lines_no_LF (s : string) :
  Forall (fun p => mem_char LF p = false) (split_lines s).
Proof.
  induction s as [| c | c c' r IHr IHc] using string_pair_ind.
  - repeat constructor.
  - rewrite split_lines_cons. cbn [split_lines].
    destruct (Ascii.eqb c LF) eqn:Hc; [repeat constructor|].
    destruct (Ascii.eqb c CR); apply cons_char_no_LF; try exact Hc; repeat constructor.
  - rewrite split_lines_cons.
    destruct (Ascii.eqb c LF) eqn:Hc; [constructor; [reflexivity | exact IHc]|].
    destruct (Ascii.eqb c CR); [|apply cons_char_no_LF; assumption].
    destruct (Ascii.eqb c' LF); [constructor; [reflexivity | exact IHr]|].
    apply cons_char_no_LF; assumption.
Qed.

Lemma parseList_clean (raw : string) : Forall clean (parseList raw).
Proof.
  unfold parseList. apply List.Forall_forall. intros x Hin.
  apply List.filter_In in Hin as [Hin Ht].
  apply List.in_map_iff in Hin as (p & <- & Hp).
  pose proof (split_lines_no_LF raw) as Hno.
  rewrite List.Forall_forall in Hno. specialize (Hno p Hp).
  split; [exact Ht|]. split; [apply trim_idempotent|].
  unfold trim. apply trimEnd_mem, trimStart_mem. exact Hno.
Qed.

Lemma split_lines_no_separator (x : string) :
  mem_char LF x = false -> split_lines x = [x].
Proof.
  induction x as [| c | c c' r IHr IHc] using string_pair_ind; intros H.
  - reflexivity.
  - rewrite split_lines_cons. cbn [split_lines cons_char].
    simpl in H. rewrite orb_false_r in H. rewrite H.
    destruct (Ascii.eqb c CR); reflexivity.
  - rewrite split_lines_cons.
    change (mem_char LF (String c (String c' r)))
      with (Ascii.eqb c LF || (Ascii.eqb c' LF || mem_char LF r)) in H.
    apply orb_false_iff in H as [H1 H2]. rewrite H1.
    assert (H3 : Ascii.eqb c' LF = false) by (apply orb_false_iff in H2; tauto).
    rewrite H3, (IHc H2). destruct (Ascii.eqb c CR); reflexivity.
Qed.

Lemma parseList_single (x : string) : clean x -> parseList x = [x].
Proof.
  intros (Ht & Htrim & Hno). unfold parseList.
  rewrite (split_lines_no_separator x Hno). simpl. rewrite Htrim, Ht. reflexivity.
Qed.

Lemma concat_cons2 (sep x y : string) (l : list string) :
  String.concat sep (x :: y :: l) = x +:+ sep +:+ String.concat sep (y :: l).
Proof. reflexivity. Qed.

Lemma parseList_concat (sep : string) (l : list string) :
  (forall s1 s2, parseList (s1 +:+ sep +:+ s2) = parseList s1 ++ parseList s2) ->
  Forall clean l -> parseList (String.concat sep l) = l.
Proof.
  intros Hsep Hl. induction Hl as [|x l Hx Hl IH].
  - reflexivity.
  - destruct l as [|y l].
    + apply parseList_single. exact Hx.
    + rewrite concat_cons2, Hsep, IH, (parseList_single x Hx). reflexivity.
Qed.

(** X1. Every label the parser delivers is not empty, has no white space
    left at either end and no line feed inside; and the parser gives the
    same list back when its labels are joined by line feeds and parsed
    again. *)
Theorem parse_delivers_clean_labels (raw : string) :
  Forall (fun x => truthy x = true /\ trim x = x /\ mem_char LF x = false)
         (parseList raw) /\
  parseList (String.concat newline (parseList raw)) = parseList raw.
Proof.
  split.
  - apply (parseList_clean raw).
  - apply parseList_concat; [apply parseList_app_LF | apply parseList_clean].
Qed.

(** X2. The list derived from two texts put one after the other with a
    line end between them, a line feed or a carriage return and a line
    feed, is the list of the first followed by the list of the second. *)
Theorem parse_splits_at_line_ends (s1 s2 : string) :
  parseList (s1 +:+ newline +:+ s2) = parseList s1 ++ parseList s2 /\
  parseList (s1 +:+ crlf +:+ s2) = parseList s1 ++ parseList s2.
Proof. split; [apply parseList_app_LF | apply parseList_app_crlf]. Qed.

(** X3. Labels that are not empty, trimmed and free of line feeds come
    back unchanged, in their order and with their duplicates, when they are
    joined by line feeds, or by carriage return and line feed, and parsed;
    so typing them into the text box and pressing reset makes them the
    pool. *)
Theorem parse_join_round_trip (l : list string) (s : State) :
  Forall clean l ->
  parseList (String.concat newline l) = l /\
  parseList (String.concat crlf l) = l /\
  items (resetList (setRawList (String.concat newline l) s)) = l.
Proof.
  intros Hl.
  assert (H : parseList (String.concat newline l) = l)
    by (apply parseList_concat; [apply parseList_app_LF | exact Hl]).
  split; [exact H|]. split; [|exact H].
  apply parseList_concat; [apply parseList_app_crlf | exact Hl].
Qed.

Lemma parse_join_round_trip_witness :
  parseList (String.concat newline ["la pomme"; "kiwi"; "kiwi"])
    = ["la pomme"; "kiwi"; "kiwi"] /\
  parseList (String.concat crlf ["la pomme"; "kiwi"; "kiwi"])
    = ["la pomme"; "kiwi"; "kiwi"] /\
  items (resetList (setRawList (String.concat newline ["la pomme"; "kiwi"; "kiwi"])
                               initialState))
    = ["la pomme"; "kiwi"; "kiwi"].
Proof.
  apply (parse_join_round_trip ["la pomme"; "kiwi"; "kiwi"] initialState).
  repeat constructor.
Defined.

(** ** Invariants of a session *)

Lemma speakAgain_cases (s : State) :
  speakAgain s = s \/
  exists text, history s !! 0 = Some (Some text) /\ truthy text = true /\
    speakAgain s =
      {| rawList := rawList s;
         items := items s;
         history := history s;
         removeOnPick := removeOnPick s;
         autoSpeak := autoSpeak s;
         selectedIndex := selectedIndex s;
         isSpinning := isSpinning s;
         rotation := rotation s;
         spinCount := spinCount s;
         timers := timers s;
         spoken := spoken s ++ [Some text] |}.
Proof.
  unfold speakAgain. destruct (history s) as [|[text|] h] eqn:E;
    [left; reflexivity | | left; reflexivity].
  destruct (truthy text) eqn:Ht; [|left; reflexivity].
  right. exists text. split; [reflexivity|]. split; [exact Ht | reflexivity].
Qed.

Lemma filter_index_Forall {A : Type} (P : A -> Prop) (keep : A -> nat -> bool)
    (i : nat) (l : list A) :
  Forall P l -> Forall P (filter_index keep i l).
Proof.
  intros H. revert i. induction H as [|x l Hx Hl IH]; intros i; simpl.
  - constructor.
  - destruct (keep x i); [constructor; [exact Hx|]|]; apply IH.
Qed.

Lemma classicBingoItems_clean : Forall clean classicBingoItems.
Proof. rewrite classicBingoItems_listing. repeat constructor. Qed.

Lemma step_hygiene (e : Event) (s : State) :
  valid_event e -> hygiene s -> hygiene (step e s).
Proof.
  intros Hv Hyg. pose proof Hyg as (Hi & Ht & Hh). destruct e; simpl in *.
  - unfold applyList. destruct (0 <? _)%nat; [|exact Hyg].
    split; [|split]; simpl; [apply parseList_clean | exact Ht | constructor].
  - split; [|split]; simpl; [apply parseList_clean | exact Ht | constructor].
  - split; [|split]; simpl; [apply classicBingoItems_clean | exact Ht | constructor].
  - destruct Hv as [Hu1 _].
    destruct (isSpinning s) eqn:Hs.
    { rewrite handleSpin_rejected by auto. exact Hyg. }
    destruct (Nat.eq_dec (length (items s)) 0) as [Hz|Hnz].
    { rewrite handleSpin_rejected; [exact Hyg|]. left.
      destruct (items s); [reflexivity | discriminate]. }
    assert (Hne : items s <> []) by (intros E; rewrite E in Hnz; auto).
    rewrite (handleSpin_accepted u1 u2 s Hne Hs).
    split; [|split]; simpl; [exact Hi | | exact Hh].
    apply Forall_app. split; [exact Ht|]. constructor; [|constructor]. simpl.
    split; [exact Hi|]. apply pickIndex_lt; [exact Hu1 | lia].
  - unfold timerElapsed. destruct (timers s) as [|t pending] eqn:E; [exact Hyg|].
    apply Forall_cons in Ht as [[Hc Hidx] Hpending].
    destruct (lookup_lt_is_Some_2 _ _ Hidx) as [x Hx].
    split; [|split]; simpl.
    + destruct (t_removeOnPick t); [apply filter_index_Forall|]; exact Hi.
    + exact Hpending.
    + constructor; [|exact Hh]. exists x. split; [exact Hx|].
      rewrite Forall_forall in Hc. apply Hc.
      apply list_elem_of_lookup. eauto.
  - destruct (speakAgain_cases s) as [->|(text & _ & _ & ->)]; [exact Hyg|].
    split; [|split]; assumption.
  - exact Hyg.
  - exact Hyg.
  - exact Hyg.
Qed.

Lemma reachable_hygiene (s : State) : reachable s -> hygiene s.
Proof.
  induction 1 as [|s e _ IH Hv].
  - split; [|split]; simpl; [apply parseList_clean | constructor | constructor].
  - apply step_hygiene; assumption.
Qed.

(** X4. In every state of a session the rotation is not negative, at most
    one timer is pending, one is pending exactly while the wheel is
    spinning, its elapsing returns the wheel to idle with no timer left,
    and the history holds no [undefined]. *)
Theorem session_keeps_one_timer (s : State) :
  reachable s ->
  (0 <= rotation s)%Q /\
  length (timers s) <= 1 /\
  (isSpinning s = true <-> timers s <> []) /\
  isSpinning (timerElapsed s) = false /\
  timers (timerElapsed s) = [] /\
  Forall is_Some (history s).
Proof.
  intros Hr. destruct (reachable_invariant s Hr) as (Hrot & Htim & Hhist).
  unfold timerElapsed.
  destruct Htim as [[Hnone Hs] | (t & Hone & Hs & _)].
  - rewrite Hnone, Hs. simpl. repeat split; auto; try congruence; lia.
  - rewrite Hone, Hs. simpl. repeat split; auto; try congruence; lia.
Qed.

Lemma session_keeps_one_timer_witness :
  (0 <= rotation spinningSession)%Q /\
  length (timers spinningSession) <= 1 /\
  (isSpinning spinningSession = true <-> timers spinningSession <> []) /\
  isSpinning (timerElapsed spinningSession) = false /\
  timers (timerElapsed spinningSession) = [] /\
  Forall is_Some (history spinningSession).
Proof.
  apply (session_keeps_one_timer spinningSession).
  apply (reachable_step initialState (EHandleSpin (1 # 2) (1 # 2))).
  - apply reachable_init.
  - simpl. unfold valid_draw. lra.
Defined.

(** X5. In every state of a session each label of the pool is not empty,
    trimmed and without line feed, and each entry of the history is such a
    label; so as soon as the history is not empty the "speak again" button
    is enabled and a click on it says the latest pick once more. *)
Theorem session_labels_are_clean (s : State) :
  reachable s ->
  Forall clean (items s) /\
  Forall (fun h => exists x, h = Some x /\ clean x) (history s) /\
  (history s <> [] ->
   speakAgainDisabled s = false /\
   exists latest, head (history s) = Some (Some latest) /\
     spoken (speakAgain s) = spoken s ++ [Some latest]).
Proof.
  intros Hr. destruct (reachable_hygiene s Hr) as (Hi & _ & Hh).
  split; [exact Hi|]. split; [exact Hh|]. intros Hne.
  unfold speakAgainDisabled, speakAgain.
  destruct (history s) as [|h0 h]; [congruence|].
  apply Forall_cons in Hh as [(x & -> & (Ht & _)) _].
  rewrite Ht. split; [reflexivity|]. exists x. split; reflexivity.
Qed.

Lemma session_labels_are_clean_witness :
  Forall clean (items spunSession) /\
  Forall (fun h => exists x, h = Some x /\ clean x) (history spunSession) /\
  (history spunSession <> [] ->
   speakAgainDisabled spunSession = false /\
   exists latest, head (history spunSession) = Some (Some latest) /\
     spoken (speakAgain spunSession) = spoken spunSession ++ [Some latest]).
Proof.
  apply (session_labels_are_clean spunSession).
  apply (reachable_step spinningSession ETimerElapsed); [|exact I].
  apply (reachable_step initialState (EHandleSpin (1 # 2) (1 # 2))).
  - apply reachable_init.
  - simpl. unfold valid_draw. lra.
Defined.

(** ** Removal after a pick *)





Lemma filter_index_sublist {A : Type} (keep : A -> nat -> bool) (i : nat) (l : list A) :
  sublist (filter_index keep i l) l.
Proof.
  revert i. induction l as [|x l IH]; intros i; simpl.
  - constructor.
  - destruct (keep x i); [apply sublist_skip | apply sublist_cons]; apply IH.
Qed.

Lemma step_items_sublist (e : Event) (s : State) :
  clearing e = false -> sublist (items (step e s)) (items s).
Proof.
  intros Hc. destruct e; simpl in *; try discriminate; try reflexivity.
  - unfold handleSpin. destruct (_ || _); reflexivity.
  - unfold timerElapsed. destruct (timers s) as [|t pending]; [reflexivity|].
    simpl. destruct (t_removeOnPick t); [apply filter_index_sublist | reflexivity].
  - destruct (speakAgain_cases s) as [->|(text & _ & _ & ->)]; reflexivity.
Qed.

Lemma step_counters (e : Event) (s : State) :
  clearing e = false ->
  spinCount (step e s) + length (history s) + length (timers s)
  = spinCount s + length (history (step e s)) + length (timers (step e s)).
Proof.
  intros Hc. destruct e; simpl in *; try discriminate; try reflexivity.
  - unfold handleSpin. destruct (_ || _); [reflexivity|].
    simpl. rewrite length_app. simpl. lia.
  - unfold timerElapsed. destruct (timers s) as [|t pending] eqn:E;
      simpl; rewrite ?E; simpl; lia.
  - destruct (speakAgain_cases s) as [->|(text & _ & _ & ->)]; reflexivity.
Qed.

(** X7. Between two of apply, reset and preset the pool only loses
    labels: whatever is clicked, typed, ticked or drawn, the pool after is
    the pool before with some labels taken out, the others in their order;
    no spin adds, changes or reorders a label. *)
Theorem pool_only_shrinks (s : State) (evs : list Event) :
  forallb (fun e => negb (clearing e)) evs = true ->
  sublist (items (run evs s)) (items s) /\
  length (items (run evs s)) <= length (items s).
Proof.
  intros Hc.
  assert (H : sublist (items (run evs s)) (items s)).
  { revert s Hc. induction evs as [|e evs IH]; intros s Hc; simpl in *.
    - reflexivity.
    - apply andb_true_iff in Hc as [Hc1 Hc2]. apply negb_true_iff in Hc1.
      etransitivity; [apply IH; exact Hc2 | apply step_items_sublist; exact Hc1]. }
  split; [exact H | apply sublist_length; exact H].
Qed.

Lemma pool_only_shrinks_witness :
  sublist (items (run [EHandleSpin (1 # 2) 0; ESetRawList "Q"; ETimerElapsed] xyzSession))
          (items xyzSession) /\
  length (items (run [EHandleSpin (1 # 2) 0; ESetRawList "Q"; ETimerElapsed] xyzSession))
    <= length (items xyzSession).
Proof.
  apply (pool_only_shrinks xyzSession
           [EHandleSpin (1 # 2) 0; ESetRawList "Q"; ETimerElapsed]).
  reflexivity.
Defined.

(** X8. Between two of apply, reset and preset the spin counter keeps in
    step with the picks: it grows by as much as the history and the pending
    timers together.  From the start of a session the counter is the number
    of picks in the history plus the spin in flight. *)
Theorem spin_count_matches_history (s : State) (evs : list Event) :
  forallb (fun e => negb (clearing e)) evs = true ->
  spinCount (run evs s) + length (history s) + length (timers s)
    = spinCount s + length (history (run evs s)) + length (timers (run evs s)) /\
  spinCount (run evs initialState)
    = length (history (run evs initialState)) + length (timers (run evs initialState)).
Proof.
  intros Hc.
  assert (H : forall s0,
    spinCount (run evs s0) + length (history s0) + length (timers s0)
    = spinCount s0 + length (history (run evs s0)) + length (timers (run evs s0))).
  { revert Hc. induction evs as [|e evs IH]; intros Hc s0; simpl in *.
    - reflexivity.
    - apply andb_true_iff in Hc as [Hc1 Hc2]. apply negb_true_iff in Hc1.
      pose proof (step_counters e s0 Hc1). pose proof (IH Hc2 (step e s0)). lia. }
  split; [apply H|]. specialize (H initialState). simpl in H. lia.
Qed.

Lemma spin_count_matches_history_witness :
  spinCount (run [EHandleSpin (1 # 2) 0; ETimerElapsed; EHandleSpin (1 # 3) 0] initialState)
  = length (history (run [EHandleSpin (1 # 2) 0; ETimerElapsed; EHandleSpin (1 # 3) 0]
                         initialState))
    + length (timers (run [EHandleSpin (1 # 2) 0; ETimerElapsed; EHandleSpin (1 # 3) 0]
                          initialState)).
Proof.
  destruct (spin_count_matches_history initialState
              [EHandleSpin (1 # 2) 0; ETimerElapsed; EHandleSpin (1 # 3) 0]) as [_ H].
  - reflexivity.
  - exact H.
Defined.

(** ** Buttons and composition of the operations *)

(** X11. The spin button is disabled exactly in the states where a click
    on it would change nothing, and so is the "speak again" button. *)
Theorem buttons_disabled_iff_ignored (s : State) (u1 u2 : Q) :
  (spinDisabled s = true <-> handleSpin u1 u2 s = s) /\
  (speakAgainDisabled s = true <-> speakAgain s = s).
Proof.
  split.
  - unfold spinDisabled. split.
    + intros H. unfold handleSpin. rewrite H. reflexivity.
    + intros H. destruct (_ || _) eqn:E; [reflexivity|].
      apply orb_false_iff in E as [E1 E2].
      assert (Hne : items s <> []) by (destruct (items s); [discriminate | congruence]).
      rewrite (handleSpin_accepted u1 u2 s Hne E2) in H.
      apply (f_equal isSpinning) in H. simpl in H. congruence.
  - unfold speakAgainDisabled. split.
    + intros H. unfold speakAgain.
      destruct (history s) as [|[text|] h]; try reflexivity.
      apply negb_true_iff in H. rewrite H. reflexivity.
    + intros H. destruct (speakAgain_cases s) as [_|(text & Hh & Ht & E)].
      * destruct (history s) as [|[text|] h] eqn:Eh; try reflexivity.
        destruct (truthy text) eqn:Ht; [|reflexivity].
        unfold speakAgain in H. rewrite Eh, Ht in H.
        apply (f_equal spoken) in H. simpl in H. unfold speak in H.
        apply (f_equal (@length _)) in H. rewrite length_app in H. simpl in H. lia.
      * rewrite E in H. apply (f_equal spoken) in H. simpl in H.
        apply (f_equal (@length _)) in H. rewrite length_app in H. simpl in H. lia.
Qed.

(** X12. Apply, reset and the preset are idempotent, and a reset right
    after the preset, or right after an accepted apply, changes nothing in
    the state. *)
Theorem pool_operations_compose (s : State) :
  applyList (applyList s) = applyList s /\
  resetList (resetList s) = resetList s /\
  setClassicBingo (setClassicBingo s) = setClassicBingo s /\
  resetList (setClassicBingo s) = setClassicBingo s /\
  (parseList (rawList s) <> [] -> resetList (applyList s) = applyList s).
Proof.
  assert (H : parseList (String.concat newline classicBingoItems) = classicBingoItems)
    by (vm_compute; reflexivity).
  split; [|split; [|split; [|split]]].
  - unfold applyList. destruct (0 <? length (parseList (rawList s))) eqn:E.
    + simpl. rewrite E. reflexivity.
    + rewrite E. reflexivity.
  - reflexivity.
  - reflexivity.
  - unfold resetList, setClassicBingo.
    cbn [rawList removeOnPick autoSpeak isSpinning timers spoken]. rewrite H. reflexivity.
  - intros Hne. unfold applyList.
    destruct (parseList (rawList s)) as [|x l] eqn:E; [congruence|].
    unfold resetList. simpl. rewrite E. reflexivity.
Qed.

Lemma pool_operations_compose_witness :
  resetList (applyList xyzSession) = applyList xyzSession.
Proof.
  destruct (pool_operations_compose xyzSession) as (_ & _ & _ & _ & H).
  apply H. vm_compute. discriminate.
Defined.

(** X13. An apply, a reset or the preset during a spin does not cancel
    it: when the timer elapses afterwards, the label picked from the old
    pool becomes the only entry of the history, beside a spin count and a
    rotation of zero, and with "remove after spin" the label at the picked
    position of the new pool is the one taken out. *)
Theorem stale_completion (s : State) (t : Timer) (e : Event) :
  timers s = [t] -> clearing e = true ->
  (e = EApplyList -> parseList (rawList s) <> []) ->
  history (timerElapsed (step e s)) = [t_items t !! t_idx t] /\
  spinCount (timerElapsed (step e s)) = 0 /\
  rotation (timerElapsed (step e s)) = 0%Q /\
  isSpinning (timerElapsed (step e s)) = false /\
  timers (timerElapsed (step e s)) = [] /\
  items (timerElapsed (step e s))
    = if t_removeOnPick t
      then take (t_idx t) (items (step e s)) ++ drop (S (t_idx t)) (items (step e s))
      else items (step e s).
Proof.
  intros Ht Hc Happly.
  assert (E : timers (step e s) = [t] /\ history (step e s) = [] /\
              spinCount (step e s) = 0 /\ rotation (step e s) = 0%Q).
  { destruct e; simpl in *; try discriminate; try (repeat split; assumption).
    unfold applyList. destruct (parseList (rawList s)) as [|x l].
    - exfalso. apply Happly; reflexivity.
    - repeat split; assumption. }
  destruct E as (E1 & E2 & E3 & E4).
  rewrite (timerElapsed_single t _ E1). simpl.
  rewrite E2, E3, E4, filter_index_removes. repeat split.
Qed.

Lemma stale_completion_witness :
  history (timerElapsed (step ESetClassicBingo spinningSession)) = [Some "N33"] /\
  spinCount (timerElapsed (step ESetClassicBingo spinningSession)) = 0.
Proof.
  destruct (stale_completion spinningSession
              {| t_items := items initialState; t_idx := 12;
                 t_autoSpeak := true; t_removeOnPick := false |} ESetClassicBingo)
    as (H1 & H2 & _).
  - reflexivity.
  - reflexivity.
  - discriminate.
  - split; [exact H1 | exact H2].
Defined.

(** ** Rendering inputs *)

Lemma colors_lookup (n i : nat) :
  i < n -> colors n !! i = Some (base !! (i mod 8)).
Proof.
  intros H. unfold colors. rewrite list_lookup_fmap, lookup_seq_lt by exact H.
  reflexivity.
Qed.

Lemma base_lookup_injective (a b : nat) :
  a < 8 -> b < 8 -> base !! a = base !! b -> a = b.
Proof.
  intros Ha Hb H.
  do 8 (destruct a as [|a]; [do 8 (destruct b as [|b]; [first [reflexivity | discriminate]|]); lia|]).
  lia.
Qed.

(** X14. The palette gives every slice a colour, the one at its position
    modulo 8; two slices next to each other in the list never share a
    colour, and the last slice meets the first one with the same colour
    exactly when the number of slices is one more than a multiple of 8. *)
Theorem colors_of_neighbours_differ (n i : nat) :
  length (colors n) = n /\
  (i < n -> exists c, colors n !! i = Some (Some c) /\ base !! (i mod 8) = Some c) /\
  (S i < n -> colors n !! i <> colors n !! S i) /\
  (1 < n -> (colors n !! 0 = colors n !! (n - 1) <-> (n - 1) mod 8 = 0)).
Proof.
  split; [|split; [|split]].
  - unfold colors. rewrite length_fmap, length_seq. reflexivity.
  - intros Hi. rewrite (colors_lookup n i Hi).
    assert (Hm : i mod 8 < 8) by (apply Nat.mod_upper_bound; lia).
    destruct (lookup_lt_is_Some_2 base (i mod 8)) as [c Hc]; [exact Hm|].
    exists c. rewrite Hc. split; reflexivity.
  - intros Hi. rewrite (colors_lookup n i), (colors_lookup n (S i)) by lia.
    intros H.
    assert (H' : base !! (i mod 8) = base !! (S i mod 8)) by congruence.
    apply base_lookup_injective in H'; try (apply Nat.mod_upper_bound; lia).
    pose proof (Nat.div_mod_eq i 8). pose proof (Nat.div_mod_eq (S i) 8). lia.
  - intros Hn. rewrite (colors_lookup n 0), (colors_lookup n (n - 1)) by lia.
    split.
    + intros H.
      assert (H' : base !! (0 mod 8) = base !! ((n - 1) mod 8)) by congruence.
      apply base_lookup_injective in H'; try (apply Nat.mod_upper_bound; lia).
      rewrite <- H'. reflexivity.
    + intros H. rewrite H. reflexivity.
Qed.

Lemma colors_of_neighbours_differ_witness :
  colors 9 !! 0 = colors 9 !! (9 - 1) /\ colors 9 !! 3 <> colors 9 !! 4.
Proof.
  destruct (colors_of_neighbours_differ 9 3) as (_ & _ & Hadj & Hseam).
  split.
  - apply Hseam; [lia | reflexivity].
  - apply Hadj. lia.
Defined.

Lemma Qnat_S (j : nat) : (Qnat (S j) == Qnat j + 1)%Q.
Proof.
  unfold Qnat. rewrite Nat2Z.inj_succ. unfold Z.succ.
  rewrite inject_Z_plus. reflexivity.
Qed.

Lemma slicesLoop_length (its : list string) (slice : Q) (cols : list (option string))
    (idxs : list nat) (start : Q) :
  length (slicesLoop its slice cols idxs start) = length idxs.
Proof.
  revert start. induction idxs as [|i idxs IH]; intros start; simpl; [reflexivity|].
  rewrite IH. reflexivity.
Qed.

Lemma slicesLoop_lookup (its : list string) (slice : Q) (cols : list (option string))
    (a k j : nat) (start : Q) :
  j < k ->
  exists sl, slicesLoop its slice cols (seq a k) start !! j = Some sl /\
    sl_key sl = a + j /\
    (sl_start sl == start + Qnat j * slice)%Q /\
    (sl_end sl == start + Qnat (S j) * slice)%Q /\
    (sl_mid sl == start + Qnat j * slice + slice / 2)%Q /\
    sl_label sl = its !! (a + j) /\
    sl_fill sl = match cols !! (a + j) with Some c => c | None => None end /\
    sl_largeArc sl = (if Qle_bool slice 180 then 0 else 1).
Proof.
  revert a j start. induction k as [|k IH]; intros a j start Hj; [lia|].
  destruct j as [|j].
  - simpl. eexists. split; [reflexivity|]. simpl.
    rewrite Nat.add_0_r. change (Qnat 0) with 0%Q. change (Qnat 1) with 1%Q.
    repeat split; try reflexivity; field.
  - destruct (IH (S a) j (start + slice)%Q) as (sl & E & K & Hs & He & Hm & Hl & Hf & Ha);
      [lia|].
    exists sl. split; [exact E|].
    replace (a + S j) with (S a + j) by lia.
    split; [exact K|]. pose proof (Qnat_S j) as Sj. pose proof (Qnat_S (S j)) as SSj.
    split; [rewrite Hs, Sj; ring|]. split; [rewrite He, SSj, Sj; ring|].
    split; [rewrite Hm, Sj; field|]. repeat split; assumption.
Qed.

(** X15. The wheel is drawn with one slice per label, in the order of the
    pool: slice [i] carries label [i] and a colour, runs from [i] to
    [i + 1] times the slice angle, the last one ending at 360 degrees, and
    has its label at the centre angle the rotation planner computes for
    position [i]; the large-arc flag is set exactly when the pool has one
    label. *)
Theorem slices_cover_the_wheel (its : list string) (i : nat) :
  i < length its ->
  length (slices its) = length its /\
  exists sl, slices its !! i = Some sl /\
    sl_key sl = i /\
    sl_label sl = its !! i /\
    is_Some (sl_label sl) /\
    is_Some (sl_fill sl) /\
    (sl_start sl == Qnat i * sliceAngle its)%Q /\
    (sl_end sl == Qnat (S i) * sliceAngle its)%Q /\
    (S i = length its -> (sl_end sl == 360)%Q) /\
    (sl_mid sl == centerAngle i (sliceAngle its))%Q /\
    (sl_largeArc sl = 1 <-> length its = 1).
Proof.
  intros Hi. unfold slices.
  split; [rewrite slicesLoop_length, length_seq; reflexivity|].
  destruct (slicesLoop_lookup its (sliceAngle its) (colors (length its))
              0 (length its) i 0 Hi)
    as (sl & E & K & Hs & He & Hm & Hl & Hf & Ha).
  simpl in K, Hl, Hf.
  assert (Hne : its <> []) by (destruct its; [simpl in Hi; lia | discriminate]).
  assert (HN : (1 <= Qnat (length its))%Q).
  { pose proof (Qnat_lt i _ Hi). pose proof (Qnat_nonneg i). lra. }
  assert (HsN : (sliceAngle its * Qnat (length its) == 360)%Q).
  { rewrite (sliceAngle_nonempty its Hne). field. lra. }
  exists sl. split; [exact E|]. split; [exact K|]. split; [exact Hl|].
  split; [rewrite Hl; apply lookup_lt_is_Some_2; exact Hi|].
  split.
  { rewrite Hf, (colors_lookup _ _ Hi). apply lookup_lt_is_Some_2.
    apply Nat.mod_upper_bound. discriminate. }
  split; [rewrite Hs; ring|]. split; [rewrite He; ring|].
  split; [intros Hlast; rewrite He, Hlast, <- HsN; ring|].
  split; [rewrite Hm; unfold centerAngle; ring|].
  rewrite Ha. destruct (Qle_bool (sliceAngle its) 180) eqn:Hb.
  - apply Qle_bool_iff in Hb. split; [discriminate|].
    intros H1. rewrite H1 in HsN. change (Qnat 1) with 1%Q in HsN. lra.
  - split; [|reflexivity]. intros _.
    assert (Hgt : ~ (sliceAngle its <= 180)%Q).
    { intros Hle. apply Qle_bool_iff in Hle. congruence. }
    destruct (Nat.eq_dec (length its) 1) as [H1|H1]; [exact H1|].
    exfalso. apply Hgt.
    assert (H2 : (2 <= Qnat (length its))%Q).
    { unfold Qnat. change 2%Q with (inject_Z 2). rewrite <- Zle_Qle. lia. }
    assert (Hpos : (0 <= sliceAngle its)%Q).
    { rewrite (sliceAngle_nonempty its Hne). apply Qle_shift_div_l; lra. }
    assert (Hprod : (0 <= sliceAngle its * (Qnat (length its) - 2))%Q)
      by (apply Qmult_le_0_compat; lra).
    lra.
Qed.

Lemma slices_cover_the_wheel_witness :
  length (slices ["A"; "B"]) = 2 /\
  exists sl, slices ["A"; "B"] !! 1 = Some sl /\ (sl_end sl == 360)%Q /\
    (sl_mid sl == centerAngle 1 (sliceAngle ["A"; "B"]))%Q.
Proof.
  destruct (slices_cover_the_wheel ["A"; "B"] 1) as (Hlen & sl & E & _ & _ & _ & _ & _ & _ & Hend & Hmid & _).
  - simpl. lia.
  - split; [exact Hlen|]. exists sl. split; [exact E|].
    split; [apply Hend; reflexivity | exact Hmid].
Defined.



(** ** Voices *)

Lemma find_first_match {A : Type} (f : A -> bool) (l : list A) (x : A) :
  In x l -> f x = true -> exists y, List.find f l = Some y /\ In y l /\ f y = true.
Proof.
  intros Hin Hf. destruct (List.find f l) as [y|] eqn:E.
  - exists y. split; [reflexivity|]. apply List.find_some in E. exact E.
  - pose proof (List.find_none f l E x Hin). congruence.
Qed.

Lemma map_injective_on_NoDup {A B : Type} (f : A -> B) (l : list A) (x y : A) :
  NoDup (List.map f l) -> In x l -> In y l -> f x = f y -> x = y.
Proof.
  induction l as [|a l IH]; intros Hnd Hx Hy Hxy; [contradiction|].
  simpl in Hnd. apply NoDup_cons in Hnd as [Hnotin Hnd].
  rewrite list_elem_of_In in Hnotin.
  destruct Hx as [->|Hx], Hy as [->|Hy].
  - reflexivity.
  - exfalso. apply Hnotin. rewrite Hxy. apply List.in_map. exact Hy.
  - exfalso. apply Hnotin. rewrite <- Hxy. apply List.in_map. exact Hx.
  - apply IH; assumption.
Qed.

Lemma find_first_split {A : Type} (f : A -> bool) (l : list A) (y : A) :
  List.find f l = Some y ->
  exists pre post, l = pre ++ y :: post /\ Forall (fun x => f x = false) pre /\ f y = true.
Proof.
  induction l as [|a l IH]; intros H; [discriminate|]. simpl in H.
  destruct (f a) eqn:Ha.
  - injection H as <-. exists [], l. split; [reflexivity|]. split; [constructor | exact Ha].
  - destruct (IH H) as (pre & post & -> & Hpre & Hy).
    exists (a :: pre), post. split; [reflexivity|]. split; [constructor; assumption | exact Hy].
Qed.

Lemma loadVoices_chosen (v : list Voice) (vs : VoiceState) :
  v <> [] -> truthy (voiceURI vs) = false ->
  exists vv, In vv v /\ voiceURI (loadVoices v vs) = v_voiceURI vv /\
    (forall en, List.find isEnglish v = Some en -> truthy (v_voiceURI en) = true ->
                vv = en).
Proof.
  intros Hne Hnone. unfold loadVoices. destruct v as [|v0 rest]; [congruence|].
  cbn [voiceURI]. rewrite Hnone. cbn [negb].
  destruct (List.find isEnglish (v0 :: rest)) as [en|] eqn:E.
  - destruct (truthy (v_voiceURI en)) eqn:Hen.
    + exists en. split; [apply (List.find_some _ _ E)|]. split; [reflexivity|].
      intros en' H _. congruence.
    + exists v0. split; [left; reflexivity|]. split; [reflexivity|].
      intros en' H Ht. congruence.
  - exists v0. split; [left; reflexivity|]. split; [reflexivity|].
    intros en' H. discriminate.
Qed.

(** X17. Loading the voices keeps a voice the user has chosen, whatever the
    list; without a choice it takes a voice of the list when there is one,
    and when the list holds a voice whose language starts with "en", in
    any letter case, it takes the first such voice, or the first voice of
    the list if that English voice has an empty URI.  Loading the same list
    a second time changes nothing. *)
Theorem loadVoices_prefers_english (v : list Voice) (vs : VoiceState) :
  voices (loadVoices v vs) = v /\
  (truthy (voiceURI vs) = true \/ v = [] ->
   voiceURI (loadVoices v vs) = voiceURI vs) /\
  (truthy (voiceURI vs) = false -> v <> [] ->
   In (voiceURI (loadVoices v vs)) (List.map v_voiceURI v) /\
   ((exists e, In e v /\ isEnglish e = true) ->
    exists pre en post,
      v = pre ++ en :: post /\
      Forall (fun x => isEnglish x = false) pre /\ isEnglish en = true /\
      (voiceURI (loadVoices v vs) = v_voiceURI en \/
       (v_voiceURI en = EmptyString /\
        head (List.map v_voiceURI v) = Some (voiceURI (loadVoices v vs)))))) /\
  loadVoices v (loadVoices v vs) = loadVoices v vs.
Proof.
  split; [reflexivity|]. split; [|split].
  - intros [H|H]; unfold loadVoices; cbn [voiceURI].
    + rewrite H. destruct v; reflexivity.
    + rewrite H. reflexivity.
  - intros Hnone Hne. split.
    + destruct (loadVoices_chosen v vs Hne Hnone) as (vv & Hin & -> & _).
      apply List.in_map. exact Hin.
    + intros (e & Hin & He).
      destruct (find_first_match isEnglish v e Hin He) as (en & E & _ & _).
      destruct (find_first_split isEnglish v en E) as (pre & post & Hv & Hpre & Hen).
      exists pre, en, post. split; [exact Hv|]. split; [exact Hpre|]. split; [exact Hen|].
      clear Hv. unfold loadVoices. destruct v as [|v0 rest]; [congruence|].
      cbn [voiceURI]. rewrite Hnone, E. cbn [negb].
      destruct (v_voiceURI en) as [|c r] eqn:Huri; simpl.
      * right. split; reflexivity.
      * left. reflexivity.
  - unfold loadVoices. cbn [voiceURI voices rate pitch volume].
    destruct v as [|v0 rest]; [reflexivity|]. f_equal.
    destruct (truthy (voiceURI vs)) eqn:Hc; cbn [negb].
    + rewrite Hc. reflexivity.
    + destruct (List.find isEnglish (v0 :: rest)) as [en|] eqn:E.
      * destruct (truthy (v_voiceURI en)) eqn:Hen.
        -- rewrite Hen. reflexivity.
        -- destruct (truthy (v_voiceURI v0)); reflexivity.
      * destruct (truthy (v_voiceURI v0)); reflexivity.
Qed.

Lemma loadVoices_prefers_english_witness :
  voiceURI (loadVoices
              [mkVoice "fr-1" "Amelie" (Some "fr-FR"); mkVoice "en-1" "Daniel" (Some "EN-gb")]
              (mkVoiceState [] EmptyString 1 1 1)) = "en-1" /\
  voiceURI (loadVoices
              [mkVoice "fr-1" "Amelie" (Some "fr-FR"); mkVoice "en-1" "Daniel" (Some "EN-gb")]
              (mkVoiceState [] "fr-1" 1 1 1)) = "fr-1".
Proof.
  destruct (loadVoices_prefers_english
              [mkVoice "fr-1" "Amelie" (Some "fr-FR"); mkVoice "en-1" "Daniel" (Some "EN-gb")]
              (mkVoiceState [] "fr-1" 1 1 1)) as (_ & Hkeep & _).
  split; [reflexivity|]. apply Hkeep. left. reflexivity.
Defined.

(** X18. Speaking empties the queue of the synthesiser first, so exactly
    one utterance is queued afterwards, with the rate, pitch and volume of
    the settings.  After the voices were loaded without a previous choice,
    the utterance has a voice of the list, the one whose URI was chosen;
    when the URIs of the list are distinct and the first English voice has
    a non-empty URI, it is that English voice. *)
Theorem speak_uses_loaded_voice (v : list Voice) (vs : VoiceState)
    (text : option string) (queue : list Utterance) :
  v <> [] -> truthy (voiceURI vs) = false ->
  exists vv,
    speakUtterance (loadVoices v vs) text queue
      = [{| u_text := text; u_voice := Some vv;
            u_rate := rate vs; u_pitch := pitch vs; u_volume := volume vs |}] /\
    In vv v /\
    v_voiceURI vv = voiceURI (loadVoices v vs) /\
    (NoDup (List.map v_voiceURI v) ->
     forall en, List.find isEnglish v = Some en -> truthy (v_voiceURI en) = true ->
                vv = en).
Proof.
  intros Hne Hnone.
  destruct (loadVoices_chosen v vs Hne Hnone) as (chosen & Hin & Huri & Hen).
  destruct (find_first_match
              (fun vv => String.eqb (v_voiceURI vv) (voiceURI (loadVoices v vs))) v chosen Hin)
    as (vv & E & Hvv & Heq).
  { rewrite Huri. apply String.eqb_refl. }
  apply String.eqb_eq in Heq.
  exists vv. split; [|split; [exact Hvv|split; [exact Heq|]]].
  - unfold speakUtterance. change (voices (loadVoices v vs)) with v.
    rewrite E. reflexivity.
  - intros Hnd en Hfind Ht. rewrite <- (Hen en Hfind Ht).
    apply (map_injective_on_NoDup v_voiceURI v); try assumption. congruence.
Qed.

Lemma speak_uses_loaded_voice_witness :
  exists vv,
    speakUtterance
      (loadVoices
         [mkVoice "fr-1" "Amelie" (Some "fr-FR"); mkVoice "en-1" "Daniel" (Some "EN-gb")]
         (mkVoiceState [] EmptyString 1 (1 # 2) 1))
      (Some "B7") [mkUtterance (Some "old") None 1 1 1]
    = [{| u_text := Some "B7"; u_voice := Some vv;
          u_rate := 1; u_pitch := 1 # 2; u_volume := 1 |}] /\
    v_name vv = "Daniel".
Proof.
  destruct (speak_uses_loaded_voice
              [mkVoice "fr-1" "Amelie" (Some "fr-FR"); mkVoice "en-1" "Daniel" (Some "EN-gb")]
              (mkVoiceState [] EmptyString 1 (1 # 2) 1)
              (Some "B7") [mkUtterance (Some "old") None 1 1 1])
    as (vv & E & _ & _ & Hen).
  - discriminate.
  - reflexivity.
  - exists vv. split; [exact E|].
    assert (Hnd : NoDup (List.map v_voiceURI
                    [mkVoice "fr-1" "Amelie" (Some "fr-FR");
                     mkVoice "en-1" "Daniel" (Some "EN-gb")])).
    { apply (bool_decide_unpack _). vm_compute. exact I. }
    rewrite (Hen Hnd (mkVoice "en-1" "Daniel" (Some "EN-gb")) eq_refl eq_refl).
    reflexivity.
Defined.

(** ** Tick boxes and blank texts *)

(** X19. The two tick boxes count as they were when the spin was
    requested, whatever is ticked, typed or clicked between the request
    and the elapsing of its timer: at completion the pick is spoken exactly
    if "auto-speak" was ticked at the request, and the label at the picked
    position is taken out of the pool, as the pool is then, exactly if
    "remove after spin" was; the tick boxes themselves stay as the user
    left them.  Without apply, reset or preset in between, the pool at
    completion is still the pool of the request. *)
Theorem tick_boxes_read_at_request (s : State) (u1 u2 : Q) (evs : list Event) :
  items s <> [] -> isSpinning s = false -> timers s = [] ->
  Forall (fun e => e <> ETimerElapsed) evs ->
  spoken (timerElapsed (run evs (handleSpin u1 u2 s)))
    = (if autoSpeak s
       then spoken (run evs (handleSpin u1 u2 s))
            ++ [items s !! pickIndex u1 (length (items s))]
       else spoken (run evs (handleSpin u1 u2 s))) /\
  items (timerElapsed (run evs (handleSpin u1 u2 s)))
    = (if removeOnPick s
       then take (pickIndex u1 (length (items s))) (items (run evs (handleSpin u1 u2 s)))
            ++ drop (S (pickIndex u1 (length (items s))))
                    (items (run evs (handleSpin u1 u2 s)))
       else items (run evs (handleSpin u1 u2 s))) /\
  removeOnPick (timerElapsed (run evs (handleSpin u1 u2 s)))
    = removeOnPick (run evs (handleSpin u1 u2 s)) /\
  autoSpeak (timerElapsed (run evs (handleSpin u1 u2 s)))
    = autoSpeak (run evs (handleSpin u1 u2 s)) /\
  (forallb passive evs = true -> items (run evs (handleSpin u1 u2 s)) = items s).
Proof.
  intros Hne Hidle Hnone Hevs.
  rewrite (handleSpin_accepted u1 u2 s Hne Hidle), Hnone. simpl app.
  set (idx := pickIndex u1 (length (items s))) in *.
  set (t := {| t_items := items s; t_idx := idx;
               t_autoSpeak := autoSpeak s; t_removeOnPick := removeOnPick s |}).
  set (s1 := mkState _ _ _ _ _ _ _ _ _ _ _).
  assert (Hs1 : isSpinning s1 = true) by reflexivity.
  destruct (spinning_run evs s1 Hevs Hs1) as [_ Htimers].
  change (timers s1) with [t] in Htimers.
  rewrite (timerElapsed_single t _ Htimers).
  simpl. unfold speak.
  split; [reflexivity|]. split; [|split; [reflexivity|split; [reflexivity|]]].
  - destruct (removeOnPick s); [apply filter_index_removes | reflexivity].
  - intros Hpassive. destruct (passive_run evs s1 Hpassive Hs1) as (Hi & _). exact Hi.
Qed.

Lemma tick_boxes_read_at_request_witness :
  spoken (timerElapsed (run [ESetAutoSpeak false; ESetRemoveOnPick false; EResetList]
                            (handleSpin (1 # 2) 0 xyzSession)))
    = [Some "Y"] /\
  items (timerElapsed (run [ESetAutoSpeak false; ESetRemoveOnPick false; EResetList]
                           (handleSpin (1 # 2) 0 xyzSession)))
    = ["X"; "Z"].
Proof.
  destruct (tick_boxes_read_at_request xyzSession (1 # 2) 0
              [ESetAutoSpeak false; ESetRemoveOnPick false; EResetList]) as (H1 & H2 & _).
  - vm_compute. discriminate.
  - reflexivity.
  - reflexivity.
  - repeat constructor; discriminate.
  - split; [rewrite H1 | rewrite H2]; reflexivity.
Defined.

Lemma trimStart_blank (s : string) :
  all_whitespace s = true -> trimStart s = EmptyString.
Proof.
  induction s as [|c r IH]; [reflexivity|]. simpl. intros H.
  apply andb_true_iff in H as [Hc Hr]. rewrite Hc. apply IH. exact Hr.
Qed.

Lemma cons_char_blank (c : ascii) (l : list string) :
  is_whitespace c = true ->
  Forall (fun p => all_whitespace p = true) l ->
  Forall (fun p => all_whitespace p = true) (cons_char c l).
Proof.
  intros Hc Hl. destruct Hl as [|p l Hp Hl]; simpl.
  - constructor; [|constructor]. simpl. rewrite Hc. reflexivity.
  - constructor; [|exact Hl]. simpl. rewrite Hc. exact Hp.
Qed.

Lemma split_lines_blank (s : string) :
  all_whitespace s = true ->
  Forall (fun p => all_whitespace p = true) (split_lines s).
Proof.
  induction s as [| c | c c' r IHr IHc] using string_pair_ind; intros H.
  - repeat constructor.
  - simpl in H. rewrite andb_true_r in H. rewrite split_lines_cons. cbn [split_lines].
    destruct (Ascii.eqb c LF); [repeat constructor|].
    destruct (Ascii.eqb c CR); apply cons_char_blank; try exact H; repeat constructor.
  - change (all_whitespace (String c (String c' r)))
      with (is_whitespace c && (is_whitespace c' && all_whitespace r)) in H.
    apply andb_true_iff in H as [Hc H2].
    assert (Hr : all_whitespace r = true) by (apply andb_true_iff in H2; tauto).
    rewrite split_lines_cons.
    destruct (Ascii.eqb c LF); [constructor; [reflexivity | exact (IHc H2)]|].
    destruct (Ascii.eqb c CR); [|apply cons_char_blank; auto].
    destruct (Ascii.eqb c' LF); [constructor; [reflexivity | exact (IHr Hr)]|].
    apply cons_char_blank; auto.
Qed.

Lemma parseList_blank (raw : string) :
  all_whitespace raw = true -> parseList raw = [].
Proof.
  intros H. unfold parseList. pose proof (split_lines_blank raw H) as Hall.
  induction Hall as [|p l Hp _ IH]; [reflexivity|].
  simpl. unfold trim. rewrite (trimStart_blank p Hp). simpl. exact IH.
Qed.

(** X20. A text of white space only, the empty text included, yields no
    label.  With such a text in the box, apply is ignored but reset
    empties the pool, and the spin button stays disabled from then on
    until a text with a label is applied or the preset is chosen: an apply
    of the blank text does not bring the pool back. *)
Theorem blank_text_empties_pool (raw : string) (s : State) :
  all_whitespace raw = true ->
  parseList raw = [] /\
  applyList (setRawList raw s) = setRawList raw s /\
  items (resetList (setRawList raw s)) = [] /\
  spinDisabled (resetList (setRawList raw s)) = true /\
  applyList (resetList (setRawList raw s)) = resetList (setRawList raw s) /\
  items (setClassicBingo (resetList (setRawList raw s))) = classicBingoItems.
Proof.
  intros H. pose proof (parseList_blank raw H) as E.
  split; [exact E|]. split; [apply applyList_rejected; exact E|].
  split; [exact E|].
  split; [unfold spinDisabled; cbn [items resetList setRawList rawList]; rewrite E; reflexivity|].
  split; [apply applyList_rejected; exact E | reflexivity].
Qed.

Lemma blank_text_empties_pool_witness :
  items (resetList (setRawList (String " " (String LF (String "009" EmptyString)))
                               initialState)) = [] /\
  spinDisabled (resetList (setRawList (String " " (String LF (String "009" EmptyString)))
                                      initialState)) = true.
Proof.
  destruct (blank_text_empties_pool (String " " (String LF (String "009" EmptyString)))
              initialState) as (_ & _ & H1 & H2 & _).
  - reflexivity.
  - split; [exact H1 | exact H2].
Defined.
